(** * kc-aeads: a shallow embedding of the committing-AEAD transforms

    This development models the Rust crate's CX committing PRF
    ([cx.rs], [cx_prf.rs]), the UtC transform over AES-GCM
    ([utc_transform.rs]), and the two HtE transforms ([hte_transform.rs],
    [mac_hte_transform.rs]).  External primitives (the block cipher, GHASH,
    HMAC and generic MACs) are parameters; the parts of the [aes-gcm] and
    [hkdf] crates that the transforms call are written out as those crates
    compute them. *)

From Stdlib Require Import String Ascii ZArith NArith Bool Lia List.
Import ListNotations.

(* ------------------------------------------------------------------ *)
(** ** Bytes, panics and results *)

(** A byte ([u8]) is a [Z] in [0, 256). *)
Definition u8 := Z.
Definition bytes := list u8.

(** [x as u8] *)
Definition as_u8 (z : Z) : u8 := Z.modulo z 256.

Fixpoint bytes_of_string (s : string) : bytes :=
  match s with
  | EmptyString => []
  | String a s' => Z.of_nat (nat_of_ascii a) :: bytes_of_string s'
  end.

(** A Rust computation either returns or panics. *)
Inductive outcome (A : Type) : Type :=
| Done (a : A)
| Panic (msg : string).
Arguments Done {A} a.
Arguments Panic {A} msg%_string.

Definition obind {A B} (m : outcome A) (f : A -> outcome B) : outcome B :=
  match m with
  | Done a => f a
  | Panic s => Panic s
  end.

Notation "'let!' x ':=' m 'in' f" := (obind m (fun x => f))
  (at level 200, x pattern, m at level 100, f at level 200).

(** [aead::Error] is an opaque unit struct. *)
Inductive Error : Set := mk_Error.

Inductive result (T : Type) : Type :=
| Ok (t : T)
| Err (e : Error).
Arguments Ok {T} t.
Arguments Err {T} e.

(** [Option::unwrap] *)
Definition unwrap {A} (o : option A) : outcome A :=
  match o with
  | Some a => Done a
  | None => Panic "called `Option::unwrap()` on a `None` value"
  end.

(** [&l[lo..hi]] *)
Definition slice_range {A} (l : list A) (lo hi : nat) : outcome (list A) :=
  if hi <=? length l then
    if lo <=? hi then Done (firstn (hi - lo) (skipn lo l))
    else Panic "slice index starts after end"
  else Panic "range end index out of range for slice".

(** [l[i]] (read) *)
Definition index {A} (l : list A) (i : nat) : outcome A :=
  match nth_error l i with
  | Some x => Done x
  | None => Panic "index out of bounds"
  end.

(** [l[i] = v] *)
Definition set_nth {A} (l : list A) (i : nat) (v : A) : outcome (list A) :=
  if i <? length l then Done (firstn i l ++ v :: skipn (S i) l)
  else Panic "index out of bounds".

(** [dst[lo..hi].copy_from_slice(src)] *)
Definition copy_from_slice_range (dst : bytes) (lo hi : nat) (src : bytes)
  : outcome bytes :=
  let! _ := slice_range dst lo hi in
  if length src =? hi - lo then Done (firstn lo dst ++ src ++ skipn hi dst)
  else Panic "source slice length does not match destination slice length".

(** [GenericArray::<u8, N>::from_slice] asserts the length. *)
Definition from_slice (n : nat) (s : bytes) : outcome bytes :=
  if length s =? n then Done s
  else Panic "assertion failed: slice.len() == N::USIZE".

(** [GenericArray::<u8, N>::from_exact_iter] *)
Definition from_exact_iter (n : nat) (l : bytes) : option bytes :=
  if length l =? n then Some l else None.

(** [a.iter_mut().zip(b.iter()).for_each(|(x, y)| *x ^= y)]: the bytes of
    [a] past the end of [b] are left alone. *)
Fixpoint xor_into (a b : bytes) : bytes :=
  match a, b with
  | x :: a', y :: b' => Z.lxor x y :: xor_into a' b'
  | _, [] => a
  | [], _ => []
  end.

(** [subtle::ConstantTimeEq] on byte slices: different lengths compare
    unequal, otherwise every byte is compared. *)
Fixpoint ct_eq (a b : bytes) : bool :=
  match a, b with
  | [], [] => true
  | x :: a', y :: b' => Z.eqb x y && ct_eq a' b'
  | _, _ => false
  end.

(* ------------------------------------------------------------------ *)
(** ** Block ciphers and the CX[E] committing PRF ([cx_prf.rs], [cx.rs]) *)

(** A block cipher [E] ([BlockEncrypt + KeyInit]).  [Block<E>] is a
    [GenericArray<u8, BlockSize>], so an encrypted block always has
    [BlockSize] bytes. *)
Record BlockCipher := {
  BlockSize : nat;
  KeySize : nat;
  encrypt_block : bytes -> bytes -> bytes;   (* key, block *)
  encrypt_block_len : forall k b, length (encrypt_block k b) = BlockSize
}.

(** [CxPrf { ciph: Ciph::new(key) }]: a keyed cipher instance.  In [cx.rs]
    the struct borrows an already keyed cipher; both carry the same data. *)
Record CxPrf := {
  ciph : BlockCipher;
  ciph_key : bytes
}.

(** [KeyInit::new] for [CxPrf]: no check, cannot fail. *)
Definition cx_new (c : BlockCipher) (key : bytes) : CxPrf :=
  {| ciph := c; ciph_key := key |}.

(** [type ComSize = DoubleKeySize<Ciph>], [type MaskSize = Ciph::KeySize],
    [type KeySize = Ciph::KeySize]. *)
Definition cx_ComSize (c : BlockCipher) : nat := KeySize c + KeySize c.
Definition cx_MaskSize (c : BlockCipher) : nat := KeySize c.
Definition cx_KeySize (c : BlockCipher) : nat := KeySize c.

(** The loop
    [for (i, block) in blocks.iter_mut().enumerate() {
       block[..MsgSize::USIZE].copy_from_slice(msg);
       block[Ciph::BlockSize::USIZE - 1] = (i + 1) as u8; }] *)
Fixpoint fill_blocks (bs : nat) (msg : bytes) (i : nat) (blocks : list bytes)
  : outcome (list bytes) :=
  match blocks with
  | [] => Done []
  | block :: rest =>
      let! block := copy_from_slice_range block 0 (length msg) msg in
      let! block := set_nth block (bs - 1) (as_u8 (Z.of_nat (i + 1))) in
      let! rest := fill_blocks bs msg (S i) rest in
      Done (block :: rest)
  end.

(** [blocks[0].iter_mut().zip(block0.iter()).for_each(|(c, m)| *c ^= m)] *)
Definition xor_block0 (blocks : list bytes) (block0 : bytes) : outcome (list bytes) :=
  match blocks with
  | [] => Panic "index out of bounds"
  | b :: rest => Done (xor_into b block0 :: rest)
  end.

(** [CommittingPrf::prf] for [CxPrf] *)
Definition prf (self : CxPrf) (msg : bytes) : outcome (bytes * bytes) :=
  let c := ciph self in
  let bs := BlockSize c in
  let com_size := cx_ComSize c in
  let mask_size := cx_MaskSize c in
  if bs =? 0 then Panic "attempt to divide by zero" else
  let num_com_blocks := com_size / bs in
  let num_mask_blocks := mask_size / bs in
  let num_total_blocks := num_com_blocks + num_mask_blocks in
  let block_buf := repeat (repeat 0%Z bs) 6 in
  let! blocks := slice_range block_buf 0 num_total_blocks in
  let! blocks := fill_blocks bs msg 0 blocks in
  let! block0 := index blocks 0 in
  let blocks := map (encrypt_block c (ciph_key self)) blocks in
  let! blocks := xor_block0 blocks block0 in
  let! com := unwrap (from_exact_iter com_size
                        (concat (firstn num_com_blocks blocks))) in
  let! mask := unwrap (from_exact_iter mask_size
                         (concat (firstn num_mask_blocks (skipn num_com_blocks blocks)))) in
  Done (com, mask).

(** The CX[E] algorithm in the words of the specification (section 4.2):
    [X_i = M || 0...0 || i] for [i = 1 .. num_com_blocks + num_mask_blocks],
    [V_i = E_K(X_i)], [V_1 <- V_1 xor X_1], [com = V_1 || ... ], [mask] the
    next [num_mask_blocks] blocks. *)
Definition cx_spec_block (bs : nat) (M : bytes) (i : nat) : bytes :=
  M ++ repeat 0%Z (bs - 1 - length M) ++ [Z.of_nat i].

Definition cx_prf_spec (c : BlockCipher) (key M : bytes) : bytes * bytes :=
  let bs := BlockSize c in
  let num_com_blocks := 2 * KeySize c / bs in
  let num_mask_blocks := KeySize c / bs in
  let X := cx_spec_block bs M in
  let V := map (fun i => encrypt_block c key (X i))
               (seq 1 (num_com_blocks + num_mask_blocks)) in
  let V := match V with
           | V1 :: rest => xor_into V1 (X 1) :: rest
           | [] => []
           end in
  (concat (firstn num_com_blocks V),
   concat (firstn num_mask_blocks (skipn num_com_blocks V))).

(* ------------------------------------------------------------------ *)
(** ** Concrete block ciphers used to run the model *)

Definition resize (n : nat) (l : bytes) : bytes := firstn n (l ++ repeat 0%Z n).

Lemma resize_length n l : length (resize n l) = n.
Proof.
  unfold resize. rewrite length_firstn, length_app, repeat_length. lia.
Qed.

(** A keyed byte permutation-like toy: xor with the key, then a rotation. *)
Definition toy_enc (bs : nat) (k b : bytes) : bytes :=
  resize bs (map (fun z => as_u8 (z * 5 + 7)) (xor_into b k)).

Definition toy_cipher (bs ks : nat) : BlockCipher :=
  {| BlockSize := bs; KeySize := ks; encrypt_block := toy_enc bs;
     encrypt_block_len := fun k b => resize_length bs _ |}.

Definition aes128_shape := toy_cipher 16 16.
Definition aes192_shape := toy_cipher 16 24.
Definition aes256_shape := toy_cipher 16 32.
Definition tdes_shape := toy_cipher 8 24.

Definition nonce12 : bytes := map Z.of_nat (seq 1 12).
Definition key16 : bytes := map Z.of_nat (seq 100 16).

(* ------------------------------------------------------------------ *)
(** ** AES-GCM as the UtC transform uses it ([aes_gcm::AesGcm<Ciph, U12>])

    Counter mode over the block cipher with a 12-byte nonce: the data
    keystream starts at counter 2, the tag is [GHASH_H(aad, ct) xor
    E_K(nonce || 1)] with [H = E_K(0^128)].  GHASH itself is a parameter. *)

Section AesGcm.

Variable ghash : bytes -> bytes -> bytes -> bytes.   (* H, aad, ciphertext *)

Definition A_MAX : N := 2 ^ 36.
Definition P_MAX : N := 2 ^ 36.
Definition C_MAX : N := 2 ^ 36 + 16.

(** Big-endian 32-bit counter ([inc32] wraps modulo 2^32). *)
Definition be32 (n : nat) : bytes :=
  let z := Z.of_nat n in
  [as_u8 (z / 16777216); as_u8 (z / 65536); as_u8 (z / 256); as_u8 z].

(** Keystream byte at position [p] of the buffer. *)
Definition gcm_keystream (c : BlockCipher) (key nonce : bytes) (p : nat) : u8 :=
  nth (p mod 16) (encrypt_block c key (nonce ++ be32 (2 + p / 16))) 0%Z.

(** [ctr.apply_keystream_partial(buffer)] *)
Fixpoint apply_keystream (ks : nat -> u8) (p : nat) (buf : bytes) : bytes :=
  match buf with
  | [] => []
  | x :: buf' => Z.lxor x (ks p) :: apply_keystream ks (S p) buf'
  end.

(** [compute_tag(mask, associated_data, ciphertext)] *)
Definition compute_tag (c : BlockCipher) (key nonce aad ct : bytes) : bytes :=
  xor_into (ghash (encrypt_block c key (repeat 0%Z 16)) aad ct)
           (encrypt_block c key (nonce ++ be32 1)).

(** [AeadInPlace::encrypt_in_place_detached]: returns the buffer and the
    result. *)
Definition gcm_encrypt (c : BlockCipher) (key nonce aad buffer : bytes)
  : bytes * result bytes :=
  if (P_MAX <? N.of_nat (length buffer))%N || (A_MAX <? N.of_nat (length aad))%N
  then (buffer, Err mk_Error)
  else
    let ct := apply_keystream (gcm_keystream c key nonce) 0 buffer in
    (ct, Ok (compute_tag c key nonce aad ct)).

(** [ClobberingDecrypt::clobbering_decrypt]: the tag is computed over the
    ciphertext, then the buffer is decrypted whatever the tag check says;
    the check's outcome is returned as a [Choice]. *)
Definition gcm_clobbering_decrypt (c : BlockCipher) (key nonce aad buffer tag : bytes)
  : bytes * result bool :=
  if (C_MAX <? N.of_nat (length buffer))%N || (A_MAX <? N.of_nat (length aad))%N
  then (buffer, Err mk_Error)
  else
    let expected_tag := compute_tag c key nonce aad buffer in
    (apply_keystream (gcm_keystream c key nonce) 0 buffer,
     Ok (ct_eq expected_tag tag)).

(** [ClobberingDecrypt::unclobber]: re-apply the keystream. *)
Definition gcm_unclobber (c : BlockCipher) (key nonce buffer : bytes) : bytes :=
  apply_keystream (gcm_keystream c key nonce) 0 buffer.

End AesGcm.

(* ------------------------------------------------------------------ *)
(** ** The UtC transform ([utc_transform.rs]) *)

Definition AesGcmTagSize : nat := 16.
Definition AesGcmNonceSize : nat := 12.

(** [type UtcTagSize<Ciph> = CxComSize<Ciph> + AesGcmTagSize] *)
Definition UtcTagSize (c : BlockCipher) : nat := cx_ComSize c + AesGcmTagSize.

(** [NewAead::KeySize for UtcOverAesGcm<Ciph> = Ciph::KeySize] *)
Definition utc_KeySize (c : BlockCipher) : nat := KeySize c.

(** [AesGcm<Ciph, U12>] is keyed with a [Key<Ciph>]. *)
Definition gcm_KeySize (c : BlockCipher) : nat := KeySize c.

(** [pack_tag] *)
Definition pack_tag (com_size : nat) (gcm_tag prf_com : bytes) : outcome bytes :=
  let utc_tag := repeat 0%Z (com_size + AesGcmTagSize) in
  let! utc_tag := copy_from_slice_range utc_tag 0 AesGcmTagSize gcm_tag in
  copy_from_slice_range utc_tag AesGcmTagSize (length utc_tag) prf_com.

(** [unpack_tag] *)
Definition unpack_tag (com_size : nat) (utc_tag : bytes) : outcome (bytes * bytes) :=
  let! g := slice_range utc_tag 0 AesGcmTagSize in
  let! gcm_tag := from_slice AesGcmTagSize g in
  let! p := slice_range utc_tag AesGcmTagSize (length utc_tag) in
  let! prf_com := from_slice com_size p in
  Done (gcm_tag, prf_com).

Section Utc.

Variable ghash : bytes -> bytes -> bytes -> bytes.

(** [UtcOverAesGcm(Ciph::new(key))]: the instance is the keyed cipher. *)

(** [encrypt_in_place_detached] *)
Definition utc_encrypt (c : BlockCipher) (key nonce associated_data buffer : bytes)
  : outcome (bytes * result bytes) :=
  let! (prf_com, prf_mask) := prf (cx_new c key) nonce in
  let '(buffer, r) := gcm_encrypt ghash c prf_mask nonce associated_data buffer in
  match r with
  | Err e => Done (buffer, Err e)
  | Ok gcm_tag =>
      let! tag := pack_tag (cx_ComSize c) gcm_tag prf_com in
      Done (buffer, Ok tag)
  end.

(** [decrypt_in_place_detached] *)
Definition utc_decrypt (c : BlockCipher) (key nonce associated_data buffer tag : bytes)
  : outcome (bytes * result unit) :=
  let! (gcm_tag, prf_com) := unpack_tag (cx_ComSize c) tag in
  let! (expected_prf_com, prf_mask) := prf (cx_new c key) nonce in
  let '(buffer, r) :=
    gcm_clobbering_decrypt ghash c prf_mask nonce associated_data buffer gcm_tag in
  match r with
  | Err e => Done (buffer, Err e)
  | Ok decryption_success =>
      let com_matches := ct_eq prf_com expected_prf_com in
      if decryption_success && com_matches then Done (buffer, Ok tt)
      else Done (gcm_unclobber c prf_mask nonce buffer, Err mk_Error)
  end.

End Utc.

Definition toy_ghash (h aad ct : bytes) : bytes :=
  resize 16 (xor_into (h ++ repeat 0%Z 16) (aad ++ [0x80%Z] ++ ct)).

(* ------------------------------------------------------------------ *)
(** ** HKDF ([hkdf::SimpleHkdf<H>]) over an HMAC *)

(** [SimpleHmac<H>]: HMAC accepts keys of every length; its output is a
    [GenericArray<u8, H::OutputSize>]. *)
Record Hash := {
  hash_OutputSize : nat;
  hmac : bytes -> bytes -> bytes;   (* key, message *)
  hmac_len : forall k m, length (hmac k m) = hash_OutputSize
}.

(** [SimpleHkdf::extract(salt, ikm)]: the returned instance holds the PRK. *)
Definition hkdf_extract (H : Hash) (salt : option bytes) (ikm : bytes) : bytes :=
  hmac H (match salt with Some s => s | None => repeat 0%Z (hash_OutputSize H) end) ikm.

(** The body of [expand_multi_info]: for every chunk of [okm] (chunks of
    [OutputSize] bytes), [output = HMAC(prk, prev || info_1 || ... || [block_n as u8 + 1])]
    and the chunk is [output[..chunk_len]].  Streaming [update]s of an HMAC
    compute the HMAC of the concatenation. *)
Fixpoint hkdf_fill (H : Hash) (prk info prev : bytes) (block_n remaining fuel : nat)
  : bytes :=
  match fuel with
  | O => []
  | S fuel' =>
      if remaining =? 0 then [] else
      let output := hmac H prk (prev ++ info ++ [(as_u8 (Z.of_nat block_n) + 1)%Z]) in
      let block_len := Nat.min (hash_OutputSize H) remaining in
      firstn block_len output
        ++ hkdf_fill H prk info output (S block_n) (remaining - block_len) fuel'
  end.

(** [Hkdf::expand_multi_info(info_components, okm)]; [None] is
    [Err(InvalidLength)]. *)
Definition expand_multi_info (H : Hash) (prk : bytes) (info_components : list bytes)
  (okm_len : nat) : outcome (option bytes) :=
  if hash_OutputSize H * 255 <? okm_len then Done None
  else if hash_OutputSize H =? 0 then Panic "chunk size must be non-zero"
  else Done (Some (hkdf_fill H prk (concat info_components) [] 0 okm_len okm_len)).

(** HKDF as RFC 5869 defines it, with a single [info] string:
    [T(0) = ""], [T(i) = HMAC(PRK, T(i-1) || info || i)],
    [OKM] = the first [L] octets of [T(1) || ... || T(N)], [N = ceil(L/HashLen)],
    and an error when [L > 255 * HashLen]. *)
Fixpoint rfc5869_T (H : Hash) (prk info prev : bytes) (i n : nat) : bytes :=
  match n with
  | O => []
  | S n' =>
      let t := hmac H prk (prev ++ info ++ [Z.of_nat i]) in
      t ++ rfc5869_T H prk info t (S i) n'
  end.

Definition rfc5869_expand (H : Hash) (prk info : bytes) (L : nat) : option bytes :=
  let h := hash_OutputSize H in
  if 255 * h <? L then None
  else Some (firstn L (rfc5869_T H prk info [] 1 ((L + h - 1) / h))).

Definition rfc5869_extract (H : Hash) (salt ikm : bytes) : bytes := hmac H salt ikm.

(* ------------------------------------------------------------------ *)
(** ** The AEAD interface ([AeadInPlace + NewAead])

    An AEAD is given by its key size and its two in-place operations, each
    applied to the instance [A::new(key)]; they return the buffer as the
    call leaves it together with the call's result. *)
Record Aead := {
  aead_KeySize : nat;
  aead_encrypt : bytes -> bytes -> bytes -> bytes -> outcome (bytes * result bytes);
  aead_decrypt : bytes -> bytes -> bytes -> bytes -> bytes -> outcome (bytes * result unit)
}.

(** [Dec(Enc(x)) == x]: the property the crate's [test_aead_correctness]
    checks. *)
Definition aead_roundtrip (A : Aead) : Prop :=
  forall key nonce aad msg ct tag,
    aead_encrypt A key nonce aad msg = Done (ct, Ok tag) ->
    aead_decrypt A key nonce aad ct tag = Done (msg, Ok tt).

Definition utc_aead (ghash : bytes -> bytes -> bytes -> bytes) (c : BlockCipher) : Aead :=
  {| aead_KeySize := utc_KeySize c;
     aead_encrypt := utc_encrypt ghash c;
     aead_decrypt := utc_decrypt ghash c |}.

(* ------------------------------------------------------------------ *)
(** ** HtE over HKDF ([hte_transform.rs]) *)

Definition HkdfHte_EXTRACT_DOMAIN_SEP : bytes := bytes_of_string "HkdfHte".

(** [HkdfHte { mac: SimpleHkdf::extract(Some(EXTRACT_DOMAIN_SEP), key).1 }] *)
Definition hkdf_hte_new (H : Hash) (key : bytes) : bytes :=
  hkdf_extract H (Some HkdfHte_EXTRACT_DOMAIN_SEP) key.

Definition hkdf_hte_encrypt (A : Aead) (H : Hash) (mac : bytes)
  (nonce associated_data buffer : bytes) : outcome (bytes * result bytes) :=
  let! r := expand_multi_info H mac [nonce; associated_data] (aead_KeySize A) in
  match r with
  | None => Panic "key size is far too large: InvalidLength"
  | Some enc_key => aead_encrypt A enc_key nonce [] buffer
  end.

Definition hkdf_hte_decrypt (A : Aead) (H : Hash) (mac : bytes)
  (nonce associated_data buffer tag : bytes) : outcome (bytes * result unit) :=
  let! r := expand_multi_info H mac [nonce; associated_data] (aead_KeySize A) in
  match r with
  | None => Panic "key size is far too large: InvalidLength"
  | Some enc_key => aead_decrypt A enc_key nonce [] buffer tag
  end.

Definition hkdf_hte_aead (A : Aead) (H : Hash) : Aead :=
  {| aead_KeySize := aead_KeySize A;
     aead_encrypt := fun key => hkdf_hte_encrypt A H (hkdf_hte_new H key);
     aead_decrypt := fun key => hkdf_hte_decrypt A H (hkdf_hte_new H key) |}.

(* ------------------------------------------------------------------ *)
(** ** HtE over a MAC ([mac_hte_transform.rs]) *)

(** A MAC ([Mac + KeyInit]): [new_from_slice] accepts or rejects a key by
    its length; the tag is a [GenericArray<u8, OutputSize>]. *)
Record MacAlg := {
  mac_OutputSize : nat;
  mac_key_ok : nat -> bool;
  mac_fn : bytes -> bytes -> bytes;   (* key, message *)
  mac_fn_len : forall k m, length (mac_fn k m) = mac_OutputSize
}.

(** [SimpleHmac<H>] as a MAC: every key length is accepted. *)
Definition hmac_as_mac (H : Hash) : MacAlg :=
  {| mac_OutputSize := hash_OutputSize H;
     mac_key_ok := fun _ => true;
     mac_fn := hmac H;
     mac_fn_len := hmac_len H |}.

Record MacHte := { mac_key : bytes }.

(** [MacHte { mac_key: key.clone() }] *)
Definition mac_hte_new (key : bytes) : MacHte := {| mac_key := key |}.

(** [M::new_from_slice(&self.mac_key).expect(..)], then [update(nonce)],
    [update(associated_data)], [finalize()]. *)
Definition mac_hte_digest (M : MacAlg) (self : MacHte) (nonce associated_data : bytes)
  : outcome bytes :=
  if mac_key_ok M (length (mac_key self))
  then Done (mac_fn M (mac_key self) (nonce ++ associated_data))
  else Panic "invalid MAC key length: InvalidLength".

Definition mac_hte_encrypt (A : Aead) (M : MacAlg) (self : MacHte)
  (nonce associated_data buffer : bytes) : outcome (bytes * result bytes) :=
  let! digest := mac_hte_digest M self nonce associated_data in
  let! d := slice_range digest 0 (aead_KeySize A) in
  let! enc_key := from_slice (aead_KeySize A) d in
  aead_encrypt A enc_key nonce [] buffer.

Definition mac_hte_decrypt (A : Aead) (M : MacAlg) (self : MacHte)
  (nonce associated_data buffer tag : bytes) : outcome (bytes * result unit) :=
  let! digest := mac_hte_digest M self nonce associated_data in
  let! d := slice_range digest 0 (aead_KeySize A) in
  let! enc_key := from_slice (aead_KeySize A) d in
  aead_decrypt A enc_key nonce [] buffer tag.

Definition mac_hte_aead (A : Aead) (M : MacAlg) : Aead :=
  {| aead_KeySize := aead_KeySize A;
     aead_encrypt := fun key => mac_hte_encrypt A M (mac_hte_new key);
     aead_decrypt := fun key => mac_hte_decrypt A M (mac_hte_new key) |}.

(* ------------------------------------------------------------------ *)
(** ** The HKDF committing PRF ([hkdf_com_prf.rs]) *)

Definition HkdfComPrf_EXTRACT_DOMAIN_SEP : bytes := bytes_of_string "HkdfComPrf".

(** [HkdfComPrf { hkdf: SimpleHkdf<H> }]: the instance holds the PRK. *)
Record HkdfComPrf := { hkdf : bytes }.

(** [KeyInit::new]: [SimpleHkdf::extract(Some(EXTRACT_DOMAIN_SEP), key).1] *)
Definition hkdf_com_prf_new (H : Hash) (key : bytes) : HkdfComPrf :=
  {| hkdf := hkdf_extract H (Some HkdfComPrf_EXTRACT_DOMAIN_SEP) key |}.

(** [type KeySize = MaskSize], [type ComSize = DoubleKeySize<Self>] *)
Definition hkdf_com_prf_KeySize (mask_size : nat) : nat := mask_size.
Definition hkdf_com_prf_ComSize (mask_size : nat) : nat := mask_size + mask_size.

(** [CommittingPrf::prf] for [HkdfComPrf<H, MaskSize, MsgSize>]:
    [expand_multi_info(&[b"P", msg], &mut com).expect(..)], then
    [expand_multi_info(&[b"L", msg], &mut mask).expect(..)]. *)
Definition hkdf_com_prf_prf (H : Hash) (mask_size : nat) (self : HkdfComPrf) (msg : bytes)
  : outcome (bytes * bytes) :=
  let! r := expand_multi_info H (hkdf self) [bytes_of_string "P"; msg]
              (hkdf_com_prf_ComSize mask_size) in
  let! com := match r with
              | Some com => Done com
              | None => Panic "PRF com size is far too large: InvalidLength"
              end in
  let! r := expand_multi_info H (hkdf self) [bytes_of_string "L"; msg] mask_size in
  let! mask := match r with
               | Some mask => Done mask
               | None => Panic "PRF com size is far too large: InvalidLength"
               end in
  Done (com, mask).

(* ------------------------------------------------------------------ *)
(** ** The exported schemes *)

Inductive Scheme :=
| UtcAes128Gcm | UtcAes256Gcm
| HteUtcAes128Gcm | HteUtcAes256Gcm
| MacHteUtcAes128Gcm | MacHteUtcAes256Gcm.

Section Schemes.

Variable ghash : bytes -> bytes -> bytes -> bytes.
Variables aes128 aes256 : BlockCipher.
Variables sha256 sha512 : Hash.

Definition scheme_aead (s : Scheme) : Aead :=
  match s with
  | UtcAes128Gcm => utc_aead ghash aes128
  | UtcAes256Gcm => utc_aead ghash aes256
  | HteUtcAes128Gcm => hkdf_hte_aead (utc_aead ghash aes128) sha256
  | HteUtcAes256Gcm => hkdf_hte_aead (utc_aead ghash aes256) sha512
  | MacHteUtcAes128Gcm => mac_hte_aead (utc_aead ghash aes128) (hmac_as_mac sha256)
  | MacHteUtcAes256Gcm => mac_hte_aead (utc_aead ghash aes256) (hmac_as_mac sha512)
  end.

End Schemes.

(** Toy hash and MACs to run the model. *)
Definition toy_hmac (n : nat) (k m : bytes) : bytes :=
  resize n (map (fun z => as_u8 (z * 3 + 1)) (xor_into (m ++ repeat 0%Z n) k)).

Definition toy_hash (n : nat) : Hash :=
  {| hash_OutputSize := n; hmac := toy_hmac n; hmac_len := fun k m => resize_length n _ |}.

Definition toy_sha256 := toy_hash 32.
Definition toy_sha512 := toy_hash 64.

(* ------------------------------------------------------------------ *)
(** ** Concrete inputs (the spec's scenario: all-zero key and nonce, "hello") *)

Definition zero_key16 : bytes := repeat 0%Z 16.
Definition zero_nonce12 : bytes := repeat 0%Z 12.
Definition hello : bytes := bytes_of_string "hello".

Definition toy_scheme (s : Scheme) : Aead :=
  scheme_aead toy_ghash aes128_shape aes256_shape toy_sha256 toy_sha512 s.

Definition out_buffer {T} (o : outcome (bytes * result T)) : bytes :=
  match o with Done (b, _) => b | Panic _ => [] end.
Definition out_tag (o : outcome (bytes * result bytes)) : bytes :=
  match o with Done (_, Ok t) => t | _ => [] end.

Definition w1_ct : bytes := Eval vm_compute in
  out_buffer (aead_encrypt (toy_scheme MacHteUtcAes256Gcm) zero_key16 zero_nonce12 [] hello).
Definition w1_tag : bytes := Eval vm_compute in
  out_tag (aead_encrypt (toy_scheme MacHteUtcAes256Gcm) zero_key16 zero_nonce12 [] hello).

(** UtC over the AES-128-shaped cipher, and the same tag with its first byte flipped. *)
Definition w2_ct : bytes := Eval vm_compute in
  out_buffer (utc_encrypt toy_ghash aes128_shape zero_key16 zero_nonce12 [] hello).
Definition w2_tag : bytes := Eval vm_compute in
  out_tag (utc_encrypt toy_ghash aes128_shape zero_key16 zero_nonce12 [] hello).
Definition w2_bad_tag : bytes :=
  match w2_tag with x :: r => Z.lxor x 1 :: r | [] => [] end.
Definition w2_prf : bytes * bytes := Eval vm_compute in
  match prf (cx_new aes128_shape zero_key16) zero_nonce12 with
  | Done p => p | Panic _ => ([], []) end.

(** A MAC that only takes 32-byte keys (as CMAC over AES-256 does). *)
Definition toy_mac_key32 : MacAlg :=
  {| mac_OutputSize := 16; mac_key_ok := fun n => n =? 32; mac_fn := toy_hmac 16;
     mac_fn_len := fun k m => resize_length 16 _ |}.

(** Keys and a short message for the CX[E] examples. *)
Definition key24 : bytes := map Z.of_nat (seq 100 24).
Definition key32 : bytes := map Z.of_nat (seq 100 32).
Definition msg4 : bytes := [1; 2; 3; 4]%Z.

(** A MacHte ciphertext with its tag's first byte flipped. *)
Definition w1_bad_tag : bytes :=
  match w1_tag with x :: r => Z.lxor x 1 :: r | [] => [] end.

(** Two block-sized messages that differ only in their last byte, and a
    message one byte longer than a block. *)
Definition msg16a : bytes := map Z.of_nat (seq 1 15) ++ [0%Z].
Definition msg16b : bytes := map Z.of_nat (seq 1 15) ++ [255%Z].
Definition msg17 : bytes := map Z.of_nat (seq 1 17).

(** An AES-GCM associated data one byte longer than [A_MAX]. *)
Definition aad_too_long : bytes := repeat 0%Z (N.to_nat A_MAX + 1).

(* ================================================================== *)
(** * Properties *)

(** The model runs on the toy instances. *)

Example prf_aes128_runs :
  exists com mask, prf (cx_new aes128_shape key16) nonce12 = Done (com, mask)
                   /\ length com = 32 /\ length mask = 16.
Proof. do 2 eexists. split; [vm_compute; reflexivity | vm_compute; split; reflexivity]. Qed.

Example utc_runs :
  exists ct tag, utc_encrypt toy_ghash aes128_shape key16 nonce12 [1%Z] [104; 105]%Z
                 = Done (ct, Ok tag)
          /\ utc_decrypt toy_ghash aes128_shape key16 nonce12 [1%Z] ct tag
             = Done ([104; 105]%Z, Ok tt).
Proof. do 2 eexists. split; vm_compute; reflexivity. Qed.

Example hte_runs :
  exists ct tag,
    aead_encrypt (scheme_aead toy_ghash aes128_shape aes256_shape toy_sha256 toy_sha512
                    HteUtcAes256Gcm) key16 nonce12 [1%Z] [104; 105]%Z = Done (ct, Ok tag)
    /\ length tag = 80.
Proof. do 2 eexists. split; vm_compute; reflexivity. Qed.

(** ** Byte and slice helpers *)

Lemma apply_keystream_length ks p buf :
  length (apply_keystream ks p buf) = length buf.
Proof.
  revert p; induction buf as [|x buf IH]; intro p; simpl; [reflexivity|].
  now rewrite IH.
Qed.

Lemma apply_keystream_involutive ks p buf :
  apply_keystream ks p (apply_keystream ks p buf) = buf.
Proof.
  revert p; induction buf as [|x buf IH]; intro p; simpl; [reflexivity|].
  rewrite IH, Z.lxor_assoc, Z.lxor_nilpotent, Z.lxor_0_r. reflexivity.
Qed.

Lemma ct_eq_refl a : ct_eq a a = true.
Proof. induction a as [|x a IH]; simpl; [reflexivity|]. now rewrite Z.eqb_refl, IH. Qed.

Lemma ct_eq_true a b : ct_eq a b = true -> a = b.
Proof.
  revert b; induction a as [|x a IH]; intros [|y b]; simpl; try discriminate; [easy|].
  intro H. apply andb_prop in H as [H1 H2].
  apply Z.eqb_eq in H1. subst. f_equal. now apply IH.
Qed.

Lemma skipn_repeat {A} n m (x : A) : skipn n (repeat x m) = repeat x (m - n).
Proof.
  revert m; induction n as [|n IH]; intro m.
  - simpl. now rewrite Nat.sub_0_r.
  - destruct m; simpl; [reflexivity|apply IH].
Qed.

Lemma slice_range_ok {A} (l : list A) lo hi :
  lo <= hi -> hi <= length l ->
  slice_range l lo hi = Done (firstn (hi - lo) (skipn lo l)).
Proof.
  intros H1 H2. unfold slice_range.
  rewrite (proj2 (Nat.leb_le _ _) H2), (proj2 (Nat.leb_le _ _) H1). reflexivity.
Qed.

Lemma copy_from_slice_range_ok dst lo hi src :
  lo <= hi -> hi <= length dst -> length src = hi - lo ->
  copy_from_slice_range dst lo hi src = Done (firstn lo dst ++ src ++ skipn hi dst).
Proof.
  intros H1 H2 H3. unfold copy_from_slice_range. rewrite slice_range_ok by assumption.
  simpl. rewrite H3, Nat.eqb_refl. reflexivity.
Qed.

Lemma copy_from_slice_range_inv dst lo hi src r :
  copy_from_slice_range dst lo hi src = Done r ->
  lo <= hi /\ hi <= length dst /\ length src = hi - lo
  /\ r = firstn lo dst ++ src ++ skipn hi dst.
Proof.
  unfold copy_from_slice_range, slice_range.
  destruct (hi <=? length dst) eqn:E1; [|discriminate].
  destruct (lo <=? hi) eqn:E2; [|discriminate]. simpl.
  destruct (length src =? hi - lo) eqn:E3; [|discriminate].
  intro H; injection H as <-.
  apply Nat.leb_le in E1, E2. apply Nat.eqb_eq in E3. auto.
Qed.

(** ** Tag packing *)

Lemma pack_tag_ok cs g com :
  length g = AesGcmTagSize -> length com = cs ->
  pack_tag cs g com = Done (g ++ com).
Proof.
  intros Hg Hc. unfold pack_tag, AesGcmTagSize in *.
  rewrite copy_from_slice_range_ok by (rewrite ?repeat_length; lia). cbn [obind firstn app].
  rewrite skipn_repeat.
  rewrite copy_from_slice_range_ok; rewrite ?length_app, ?repeat_length; try lia.
  rewrite firstn_app, Hg, Nat.sub_diag, firstn_O, app_nil_r, <- Hg, firstn_all.
  rewrite skipn_all2 by (rewrite length_app, repeat_length; lia).
  now rewrite app_nil_r.
Qed.

Lemma pack_tag_inv cs g com t :
  pack_tag cs g com = Done t ->
  length g = AesGcmTagSize /\ length com = cs /\ t = g ++ com.
Proof.
  unfold pack_tag. destruct (copy_from_slice_range _ 0 AesGcmTagSize g) as [u|] eqn:E1;
    simpl; [|discriminate].
  apply copy_from_slice_range_inv in E1 as (_ & H1 & Hg & ->).
  rewrite repeat_length in H1. unfold AesGcmTagSize in *. simpl in Hg.
  intro E2. apply copy_from_slice_range_inv in E2 as (_ & _ & Hc & ->).
  rewrite ?length_app, ?length_firstn, ?length_skipn, ?repeat_length in Hc.
  split; [lia|]. split; [lia|].
  rewrite !firstn_O, !app_nil_l, skipn_all, app_nil_r.
  rewrite firstn_app, Hg, Nat.sub_diag, firstn_O, app_nil_r, <- Hg, firstn_all.
  reflexivity.
Qed.

Lemma unpack_tag_app cs g com :
  length g = AesGcmTagSize -> length com = cs ->
  unpack_tag cs (g ++ com) = Done (g, com).
Proof.
  intros Hg Hc. unfold unpack_tag, AesGcmTagSize in *.
  assert (Hlen : length (g ++ com) = 16 + cs) by (rewrite length_app; lia).
  assert (E1 : firstn (16 - 0) (skipn 0 (g ++ com)) = g).
  { rewrite Nat.sub_0_r. change (skipn 0 (g ++ com)) with (g ++ com).
    rewrite firstn_app, Hg, Nat.sub_diag, firstn_O, app_nil_r, <- Hg.
    apply firstn_all. }
  assert (E2 : firstn (length (g ++ com) - 16) (skipn 16 (g ++ com)) = com).
  { rewrite Hlen, skipn_app, Hg, Nat.sub_diag, <- Hg, skipn_all, Hg.
    change (skipn 0 com) with com. rewrite <- Hc, Nat.add_comm, Nat.add_sub.
    apply firstn_all. }
  rewrite slice_range_ok by lia. cbn [obind]. rewrite E1.
  unfold from_slice at 1. rewrite Hg, Nat.eqb_refl. cbn [obind].
  rewrite slice_range_ok by lia. cbn [obind]. rewrite E2.
  unfold from_slice. rewrite Hc, Nat.eqb_refl. reflexivity.
Qed.

(** ** UtC *)

Lemma gcm_len_ok_decrypt n a :
  ((P_MAX <? n) || (A_MAX <? a))%N = false ->
  ((C_MAX <? n) || (A_MAX <? a))%N = false.
Proof.
  intro H. apply orb_false_iff in H as [H1 H2]. rewrite H2, orb_false_r.
  apply N.ltb_ge in H1. apply N.ltb_ge. unfold C_MAX, P_MAX in *.
  eapply N.le_trans; [exact H1 | apply N.le_add_r].
Qed.

Lemma utc_roundtrip ghash c : aead_roundtrip (utc_aead ghash c).
Proof.
  intros key nonce aad msg ct tag H. cbn [aead_encrypt aead_decrypt utc_aead] in *.
  unfold utc_encrypt in H.
  destruct (prf (cx_new c key) nonce) as [[com mask]|s] eqn:Hp;
    cbn [obind] in H; [|discriminate].
  unfold gcm_encrypt in H.
  destruct ((P_MAX <? N.of_nat (length msg))%N || (A_MAX <? N.of_nat (length aad))%N)
    eqn:Hl; cbv beta iota zeta in H; [discriminate|].
  destruct (pack_tag _ _ _) as [t|s] eqn:Hpk; cbn [obind] in H; [|discriminate].
  injection H as <- <-. apply pack_tag_inv in Hpk as (Hg & Hc & ->).
  unfold utc_decrypt. rewrite unpack_tag_app by assumption. cbn [obind].
  rewrite Hp. cbn [obind]. unfold gcm_clobbering_decrypt.
  rewrite apply_keystream_length, (gcm_len_ok_decrypt _ _ Hl).
  cbv beta iota zeta. rewrite !ct_eq_refl. cbn [andb].
  unfold gcm_unclobber. rewrite apply_keystream_involutive. reflexivity.
Qed.

(** Every error UtC's decryption returns leaves the caller's buffer as it
    was passed in (this includes the length check of the base cipher, which
    fails before touching the buffer). *)
Lemma utc_decrypt_err_keeps_buffer ghash c key nonce aad buffer tag buffer' e :
  utc_decrypt ghash c key nonce aad buffer tag = Done (buffer', Err e) ->
  buffer' = buffer /\ e = mk_Error.
Proof.
  unfold utc_decrypt.
  destruct (unpack_tag _ tag) as [[g com]|s]; cbn [obind]; [|discriminate].
  destruct (prf _ nonce) as [[ecom mask]|s]; cbn [obind]; [|discriminate].
  unfold gcm_clobbering_decrypt.
  destruct (_ || _)%N; cbv beta iota zeta.
  - intro H; injection H as -> ->. destruct e. auto.
  - destruct (ct_eq _ g && ct_eq com ecom); [discriminate|].
    intro H; injection H as <- <-. unfold gcm_unclobber.
    rewrite apply_keystream_involutive. auto.
Qed.

(** ** HtE *)

Lemma hkdf_hte_roundtrip A H : aead_roundtrip A -> aead_roundtrip (hkdf_hte_aead A H).
Proof.
  intros HA key nonce aad msg ct tag Henc. cbn [aead_encrypt aead_decrypt hkdf_hte_aead] in *.
  unfold hkdf_hte_encrypt in Henc. unfold hkdf_hte_decrypt.
  destruct (expand_multi_info _ _ _ _) as [[enc_key|]|s]; cbn [obind] in *;
    try discriminate.
  now apply HA.
Qed.

Lemma mac_hte_roundtrip A M : aead_roundtrip A -> aead_roundtrip (mac_hte_aead A M).
Proof.
  intros HA key nonce aad msg ct tag Henc. cbn [aead_encrypt aead_decrypt mac_hte_aead] in *.
  unfold mac_hte_encrypt in Henc. unfold mac_hte_decrypt.
  destruct (mac_hte_digest _ _ _ _) as [digest|s]; cbn [obind] in *; [|discriminate].
  destruct (slice_range _ _ _) as [d|s]; cbn [obind] in *; [|discriminate].
  destruct (from_slice _ _) as [enc_key|s]; cbn [obind] in *; [|discriminate].
  now apply HA.
Qed.

(** ** HKDF against RFC 5869 *)

Lemma hkdf_fill_T H prk info : forall n prev b r fuel,
  0 < hash_OutputSize H -> r <= n * hash_OutputSize H -> r <= fuel -> b + n <= 255 ->
  hkdf_fill H prk info prev b r fuel = firstn r (rfc5869_T H prk info prev (S b) n).
Proof.
  induction n as [|n IH]; intros prev b r fuel Hh Hr Hf Hb.
  - assert (r = 0) by lia. subst. destruct fuel; reflexivity.
  - destruct fuel as [|fuel]; [assert (r = 0) by lia; subst; reflexivity|].
    cbn [hkdf_fill rfc5869_T].
    destruct (r =? 0) eqn:Er; [apply Nat.eqb_eq in Er; subst; reflexivity|].
    apply Nat.eqb_neq in Er.
    assert (Hc : (as_u8 (Z.of_nat b) + 1)%Z = Z.of_nat (S b)).
    { unfold as_u8. rewrite Z.mod_small by lia. lia. }
    rewrite Hc.
    set (t := hmac H prk (prev ++ info ++ [Z.of_nat (S b)])).
    assert (Ht : length t = hash_OutputSize H) by apply hmac_len.
    rewrite firstn_app, Ht.
    rewrite IH by lia.
    destruct (Nat.le_gt_cases r (hash_OutputSize H)) as [Hle|Hgt].
    + rewrite Nat.min_r by lia.
      replace (r - r) with 0 by lia. replace (r - hash_OutputSize H) with 0 by lia.
      reflexivity.
    + rewrite Nat.min_l by lia.
      rewrite (firstn_all2 (n := r)) by lia. rewrite <- Ht, firstn_all. reflexivity.
Qed.

(** [expand_multi_info] with the two components [nonce] and [aad] is
    RFC 5869's HKDF-Expand with [info = nonce || aad]. *)
Lemma expand_multi_info_rfc5869 H prk info1 info2 L :
  0 < hash_OutputSize H ->
  expand_multi_info H prk [info1; info2] L = Done (rfc5869_expand H prk (info1 ++ info2) L).
Proof.
  intro Hh. unfold expand_multi_info, rfc5869_expand. rewrite Nat.mul_comm.
  destruct (255 * hash_OutputSize H <? L) eqn:E; [reflexivity|].
  apply Nat.ltb_ge in E.
  replace (hash_OutputSize H =? 0) with false by (symmetry; apply Nat.eqb_neq; lia).
  cbn [concat]. rewrite app_nil_r. do 2 f_equal.
  set (h := hash_OutputSize H) in *.
  pose proof (Nat.div_mod (L + h - 1) h ltac:(lia)) as Hdm.
  pose proof (Nat.mod_upper_bound (L + h - 1) h ltac:(lia)) as Hmb.
  assert (Hq : (L + h - 1) / h < 256) by (apply Nat.Div0.div_lt_upper_bound; lia).
  apply (hkdf_fill_T H prk _ _ [] 0 L L); [lia | nia | lia | lia].
Qed.

(** ** CX[E] *)

Definition all_len (n : nat) (bl : list bytes) : Prop := Forall (fun b => length b = n) bl.

Lemma firstn_repeat_le {A} n m (x : A) : n <= m -> firstn n (repeat x m) = repeat x n.
Proof.
  revert m; induction n as [|n IH]; intros [|m] H; simpl; try reflexivity; try lia.
  f_equal. apply IH. lia.
Qed.

Lemma all_len_repeat n b m : length b = n -> all_len n (repeat b m).
Proof. intro H. unfold all_len. apply Forall_forall. intros x Hx. now apply repeat_spec in Hx as ->. Qed.

Lemma all_len_firstn n k bl : all_len n bl -> all_len n (firstn k bl).
Proof.
  unfold all_len. revert bl; induction k as [|k IH]; intros [|b bl] H; simpl;
    try constructor; inversion H; auto.
Qed.

Lemma all_len_skipn n k bl : all_len n bl -> all_len n (skipn k bl).
Proof.
  unfold all_len. revert bl; induction k as [|k IH]; intros [|b bl] H; simpl;
    auto; inversion H; auto.
Qed.

Lemma length_concat_all_len n bl : all_len n bl -> length (concat bl) = length bl * n.
Proof.
  induction 1 as [|b bl Hb _ IH]; simpl; [reflexivity|].
  rewrite length_app, IH, Hb. lia.
Qed.

Lemma length_xor_into a b : length (xor_into a b) = length a.
Proof.
  revert b; induction a as [|x a IH]; intros [|y b]; simpl; auto.
Qed.

Lemma slice_range_inv {A} (l : list A) lo hi r :
  slice_range l lo hi = Done r -> hi <= length l /\ lo <= hi /\ r = firstn (hi - lo) (skipn lo l).
Proof.
  unfold slice_range.
  destruct (hi <=? length l) eqn:E1; [|discriminate].
  destruct (lo <=? hi) eqn:E2; [|discriminate].
  intro H; injection H as <-. apply Nat.leb_le in E1, E2. auto.
Qed.

Lemma set_nth_inv {A} (l : list A) i v r :
  set_nth l i v = Done r -> length r = length l.
Proof.
  unfold set_nth. destruct (i <? length l) eqn:E; [|discriminate].
  apply Nat.ltb_lt in E. intro H; injection H as <-.
  rewrite length_app, length_firstn. cbn [length].
  destruct l as [|a l]; cbn [length] in *; [lia|]. rewrite length_skipn. lia.
Qed.

Lemma fill_blocks_inv bs msg : forall blocks i blocks',
  fill_blocks bs msg i blocks = Done blocks' -> all_len bs blocks ->
  all_len bs blocks' /\ length blocks' = length blocks.
Proof.
  induction blocks as [|b bl IH]; intros i blocks' H Hall; simpl in H.
  - injection H as <-. split; [constructor | reflexivity].
  - pose proof (Forall_inv Hall) as Hb; pose proof (Forall_inv_tail Hall) as Hbl.
    cbv beta in Hb.
    destruct (copy_from_slice_range b 0 (length msg) msg) as [b1|s] eqn:E1;
      cbn [obind] in H; [|discriminate].
    apply copy_from_slice_range_inv in E1 as (_ & Hle & _ & ->).
    destruct (set_nth _ _ _) as [b2|s] eqn:E2; cbn [obind] in H; [|discriminate].
    apply set_nth_inv in E2.
    destruct (fill_blocks bs msg (S i) bl) as [bl'|s] eqn:E3; cbn [obind] in H; [|discriminate].
    injection H as <-. destruct (IH _ _ E3 Hbl) as [IH1 IH2].
    split; [|simpl; now rewrite IH2]. constructor; [|exact IH1].
    rewrite E2, !length_app, length_skipn. simpl. lia.
Qed.

Lemma fill_blocks_ok bs msg : forall blocks i,
  0 < bs -> length msg <= bs -> all_len bs blocks ->
  exists blocks', fill_blocks bs msg i blocks = Done blocks'.
Proof.
  induction blocks as [|b bl IH]; intros i Hbs Hmsg Hall; simpl; [eauto|].
  pose proof (Forall_inv Hall) as Hb; pose proof (Forall_inv_tail Hall) as Hbl.
    cbv beta in Hb.
  rewrite copy_from_slice_range_ok by lia. cbn [obind].
  unfold set_nth at 1.
  destruct (_ <? _) eqn:Elt;
    [|apply Nat.ltb_ge in Elt; rewrite !length_app, length_skipn in Elt; simpl in Elt; lia].
  cbn [obind]. destruct (IH (S i) Hbs Hmsg Hbl) as [bl' ->]. cbn [obind]. eauto.
Qed.

Lemma fill_blocks_spec bs msg : forall n i,
  length msg < bs -> i + n <= 255 ->
  fill_blocks bs msg i (repeat (repeat 0%Z bs) n)
    = Done (map (cx_spec_block bs msg) (seq (S i) n)).
Proof.
  induction n as [|n IH]; intros i Hmsg Hn; [reflexivity|].
  cbn [repeat fill_blocks].
  rewrite copy_from_slice_range_ok by (rewrite ?repeat_length; lia). cbn [obind].
  rewrite !firstn_O, app_nil_l, skipn_repeat.
  unfold set_nth at 1.
  destruct (_ <? _) eqn:Elt;
    [|apply Nat.ltb_ge in Elt; rewrite length_app, repeat_length in Elt; lia].
  cbn [obind]. rewrite IH by lia. cbn [obind map seq]. do 2 f_equal.
  unfold cx_spec_block.
  rewrite firstn_app, firstn_all2 by lia.
  rewrite firstn_repeat_le by lia.
  rewrite skipn_all2 by (rewrite length_app, repeat_length; lia).
  rewrite <- app_assoc. do 2 f_equal.
  unfold as_u8. rewrite Z.mod_small by lia. f_equal. f_equal. lia.
Qed.

(** What a successful [prf] returns: blocks of [BlockSize] bytes, the
    commitment made of the first [num_com_blocks] of them and the mask of
    the next [num_mask_blocks]. *)
Lemma prf_done_shape c key msg com mask :
  prf (cx_new c key) msg = Done (com, mask) ->
  BlockSize c <> 0
  /\ length com = cx_ComSize c /\ length mask = cx_MaskSize c
  /\ exists blocks,
       all_len (BlockSize c) blocks
       /\ length blocks = cx_ComSize c / BlockSize c + cx_MaskSize c / BlockSize c
       /\ com = concat (firstn (cx_ComSize c / BlockSize c) blocks)
       /\ mask = concat (firstn (cx_MaskSize c / BlockSize c)
                                (skipn (cx_ComSize c / BlockSize c) blocks)).
Proof.
  unfold prf. cbn [ciph ciph_key cx_new]. cbv beta zeta.
  destruct (BlockSize c =? 0) eqn:Hbs; [discriminate|]. apply Nat.eqb_neq in Hbs.
  destruct (slice_range _ 0 _) as [b0|s] eqn:E0; cbn [obind]; [|discriminate].
  apply slice_range_inv in E0 as (Hle & _ & ->).
  rewrite repeat_length in Hle. rewrite Nat.sub_0_r. change (skipn 0 ?l) with l.
  rewrite firstn_repeat_le by exact Hle.
  destruct (fill_blocks _ _ 0 _) as [b1|s] eqn:E1; cbn [obind]; [|discriminate].
  apply fill_blocks_inv in E1 as [Hall1 Hlen1]; [|apply all_len_repeat, repeat_length].
  rewrite repeat_length in Hlen1.
  destruct (index b1 0) as [blk0|s]; cbn [obind]; [|discriminate].
  destruct (map (encrypt_block c key) b1) as [|e1 rest] eqn:E2; cbn [xor_block0 obind];
    [discriminate|].
  assert (Hall2 : all_len (BlockSize c) (xor_into e1 blk0 :: rest)).
  { assert (Hm : all_len (BlockSize c) (map (encrypt_block c key) b1)).
    { unfold all_len. apply Forall_forall. intros x Hx.
      apply in_map_iff in Hx as (y & <- & _). apply encrypt_block_len. }
    rewrite E2 in Hm. inversion Hm; subst. constructor; [|assumption].
    now rewrite length_xor_into. }
  assert (Hlen2 : length (xor_into e1 blk0 :: rest) = length b1).
  { rewrite <- (length_map (encrypt_block c key) b1), E2. reflexivity. }
  unfold from_exact_iter.
  destruct (Nat.eqb (length (concat (firstn _ (xor_into e1 blk0 :: rest)))) _) eqn:E3;
    cbn [unwrap obind]; [|discriminate].
  destruct (Nat.eqb (length (concat (firstn _ (skipn _ (xor_into e1 blk0 :: rest))))) _) eqn:E4;
    cbn [unwrap obind]; [|discriminate].
  intro H; injection H as <- <-. apply Nat.eqb_eq in E3, E4.
  split; [exact Hbs|]. split; [exact E3|]. split; [exact E4|].
  exists (xor_into e1 blk0 :: rest). repeat split; auto. lia.
Qed.

Lemma from_exact_iter_ok n l : length l = n -> from_exact_iter n l = Some l.
Proof. intro H. unfold from_exact_iter. now rewrite H, Nat.eqb_refl. Qed.

Lemma length_concat_firstn n k bl :
  all_len n bl -> k <= length bl -> length (concat (firstn k bl)) = k * n.
Proof.
  intros H Hk. rewrite (length_concat_all_len n) by now apply all_len_firstn.
  rewrite length_firstn, Nat.min_l by exact Hk. reflexivity.
Qed.

Lemma length_concat_firstn_skipn n k m bl :
  all_len n bl -> k + m <= length bl ->
  length (concat (firstn m (skipn k bl))) = m * n.
Proof.
  intros H Hk. apply length_concat_firstn; [now apply all_len_skipn|].
  rewrite length_skipn. lia.
Qed.

Lemma all_len_encrypt c key bl : all_len (BlockSize c) (map (encrypt_block c key) bl).
Proof.
  unfold all_len. apply Forall_forall. intros x Hx.
  apply in_map_iff in Hx as (y & <- & _). apply encrypt_block_len.
Qed.

(** When [KeySize] is a positive multiple of [BlockSize] and at most twice
    it, [num_com_blocks = 2q] and [num_mask_blocks = q] with [q] 1 or 2. *)
Lemma cx_block_counts c :
  0 < KeySize c -> KeySize c mod BlockSize c = 0 -> KeySize c <= 2 * BlockSize c ->
  BlockSize c <> 0 /\
  (exists q, 1 <= q <= 2 /\ KeySize c = q * BlockSize c
             /\ cx_MaskSize c / BlockSize c = q /\ cx_ComSize c / BlockSize c = 2 * q).
Proof.
  intros Hk Hm Hle.
  assert (Hbs : BlockSize c <> 0).
  { intro H0. rewrite H0, Nat.mod_0_r in Hm. lia. }
  split; [exact Hbs|].
  pose proof (Nat.div_mod_eq (KeySize c) (BlockSize c)) as Hd. rewrite Hm in Hd.
  exists (KeySize c / BlockSize c).
  assert (Hq : KeySize c = KeySize c / BlockSize c * BlockSize c) by lia.
  unfold cx_MaskSize, cx_ComSize.
  split; [split; nia|]. split; [exact Hq|]. split; [reflexivity|].
  rewrite Hq at 1 2. replace (KeySize c / BlockSize c * BlockSize c
                               + KeySize c / BlockSize c * BlockSize c)
    with (2 * (KeySize c / BlockSize c) * BlockSize c) by lia.
  now rewrite Nat.div_mul.
Qed.

(** [prf] once [fill_blocks] has produced the blocks [b0 :: bl]: the
    remaining steps (encryption, the xor into block 0, the two
    [from_exact_iter]) succeed when the block counts cover [ComSize] and
    [MaskSize] exactly. *)
Lemma prf_unfold c key msg b0 bl :
  let bs := BlockSize c in
  let nc := cx_ComSize c / bs in
  let nm := cx_MaskSize c / bs in
  bs <> 0 -> nc + nm <= 6 ->
  fill_blocks bs msg 0 (repeat (repeat 0%Z bs) (nc + nm)) = Done (b0 :: bl) ->
  all_len bs (b0 :: bl) -> length (b0 :: bl) = nc + nm ->
  nc * bs = cx_ComSize c -> nm * bs = cx_MaskSize c ->
  let V := xor_into (encrypt_block c key b0) b0 :: map (encrypt_block c key) bl in
  prf (cx_new c key) msg = Done (concat (firstn nc V), concat (firstn nm (skipn nc V))).
Proof.
  intros bs nc nm Hbs H6 Hfill Hall Hlen Hnc Hnm V.
  assert (HV : all_len bs V).
  { constructor.
    - rewrite length_xor_into. apply encrypt_block_len.
    - apply all_len_encrypt. }
  assert (HlenV : length V = nc + nm) by (subst V; simpl; rewrite length_map; simpl in Hlen; lia).
  unfold prf. cbv zeta. cbn [ciph ciph_key cx_new]. fold bs nc nm.
  destruct (bs =? 0) eqn:E0; [apply Nat.eqb_eq in E0; contradiction|].
  rewrite slice_range_ok by (rewrite ?repeat_length; lia). cbn [obind].
  rewrite Nat.sub_0_r. change (skipn 0 ?l) with l.
  rewrite firstn_repeat_le by exact H6.
  rewrite Hfill. cbn [obind index nth_error map xor_block0].
  rewrite (from_exact_iter_ok _ (concat (firstn nc V))).
  2:{ rewrite (length_concat_firstn bs) by (auto; lia). exact Hnc. }
  cbn [unwrap obind].
  rewrite (from_exact_iter_ok _ (concat (firstn nm (skipn nc V)))).
  2:{ rewrite (length_concat_firstn_skipn bs) by (auto; lia). exact Hnm. }
  reflexivity.
Qed.

(** [prf] returns a pair whenever the six-block buffer suffices, the key
    is a positive multiple of the block and the message fits in a block. *)
Lemma prf_total c key msg :
  0 < KeySize c -> KeySize c mod BlockSize c = 0 -> KeySize c <= 2 * BlockSize c ->
  length msg <= BlockSize c ->
  exists com mask, prf (cx_new c key) msg = Done (com, mask).
Proof.
  intros Hk Hm Hle Hmsg.
  destruct (cx_block_counts c Hk Hm Hle) as (Hbs & q & Hq & Hks & Hnm & Hnc).
  set (n := cx_ComSize c / BlockSize c + cx_MaskSize c / BlockSize c).
  assert (Hn : n = 3 * q) by (subst n; rewrite Hnc, Hnm; lia).
  assert (Hall0 : all_len (BlockSize c) (repeat (repeat 0%Z (BlockSize c)) n))
    by (apply all_len_repeat, repeat_length).
  destruct (fill_blocks_ok (BlockSize c) msg (repeat (repeat 0%Z (BlockSize c)) n) 0)
    as [bl Hfill]; [lia | exact Hmsg | exact Hall0 |].
  pose proof (fill_blocks_inv _ _ _ _ _ Hfill Hall0) as [Hall Hlen].
  rewrite repeat_length in Hlen.
  destruct bl as [|b0 bl]; [simpl in Hlen; lia|].
  pose proof (prf_unfold c key msg b0 bl) as HU. cbv zeta in HU.
  rewrite HU; [eauto | exact Hbs | fold n; lia | exact Hfill | exact Hall | exact Hlen | |].
  - rewrite Hnc. unfold cx_ComSize. lia.
  - rewrite Hnm. unfold cx_MaskSize. lia.
Qed.

(* ------------------------------------------------------------------ *)
(** More than 6 blocks do not fit in the 6-block scratch buffer. *)
Lemma prf_too_many_blocks c key msg :
  0 < BlockSize c ->
  6 < cx_ComSize c / BlockSize c + cx_MaskSize c / BlockSize c ->
  prf (cx_new c key) msg = Panic "range end index out of range for slice".
Proof.
  intros Hbs H6. unfold prf. cbv zeta. cbn [ciph ciph_key cx_new].
  destruct (BlockSize c =? 0) eqn:E0; [apply Nat.eqb_eq in E0; lia|].
  unfold slice_range. rewrite repeat_length.
  destruct (_ <=? 6) eqn:E; [apply Nat.leb_le in E; lia | reflexivity].
Qed.

(** ** Claims *)

(** C1: for every exported scheme (UtC over AES-128/AES-256 and the
    HKDF-based and MAC-based HtE over them), every key, nonce, associated
    data and plaintext: when encryption returns a ciphertext and tag,
    decrypting them with the same key, nonce and associated data succeeds
    and yields the plaintext. *)
Theorem all_schemes_roundtrip ghash aes128 aes256 sha256 sha512 (s : Scheme)
  key nonce aad msg ct tag :
  aead_encrypt (scheme_aead ghash aes128 aes256 sha256 sha512 s) key nonce aad msg
    = Done (ct, Ok tag) ->
  aead_decrypt (scheme_aead ghash aes128 aes256 sha256 sha512 s) key nonce aad ct tag
    = Done (msg, Ok tt).
Proof.
  destruct s; cbn [scheme_aead].
  - apply utc_roundtrip.
  - apply utc_roundtrip.
  - apply hkdf_hte_roundtrip, utc_roundtrip.
  - apply hkdf_hte_roundtrip, utc_roundtrip.
  - apply mac_hte_roundtrip, utc_roundtrip.
  - apply mac_hte_roundtrip, utc_roundtrip.
Qed.

Lemma all_schemes_roundtrip_witness :
  aead_encrypt (toy_scheme MacHteUtcAes256Gcm) zero_key16 zero_nonce12 [] hello
    = Done (w1_ct, Ok w1_tag)
  /\ aead_decrypt (toy_scheme MacHteUtcAes256Gcm) zero_key16 zero_nonce12 [] w1_ct w1_tag
    = Done (hello, Ok tt).
Proof.
  assert (H : aead_encrypt (toy_scheme MacHteUtcAes256Gcm) zero_key16 zero_nonce12 [] hello
              = Done (w1_ct, Ok w1_tag)) by (vm_compute; reflexivity).
  split; [exact H|].
  exact (all_schemes_roundtrip toy_ghash aes128_shape aes256_shape toy_sha256 toy_sha512
           MacHteUtcAes256Gcm zero_key16 zero_nonce12 [] hello w1_ct w1_tag H).
Defined.

(** C2: when UtC's decryption fails because the GCM tag does not match, or
    the commitment does not match, or both, it returns the one error value
    [Err mk_Error] and the buffer it leaves is exactly the ciphertext that
    was passed in (the keystream has been re-applied by [unclobber]). *)
Theorem utc_decrypt_failure_restores_ciphertext ghash c key nonce aad buffer tag
  gcm_tag prf_com expected_prf_com prf_mask :
  unpack_tag (cx_ComSize c) tag = Done (gcm_tag, prf_com) ->
  prf (cx_new c key) nonce = Done (expected_prf_com, prf_mask) ->
  ((C_MAX <? N.of_nat (length buffer)) || (A_MAX <? N.of_nat (length aad)))%N = false ->
  ct_eq (compute_tag ghash c prf_mask nonce aad buffer) gcm_tag
    && ct_eq prf_com expected_prf_com = false ->
  utc_decrypt ghash c key nonce aad buffer tag = Done (buffer, Err mk_Error).
Proof.
  intros Hu Hp Hl Hfail. unfold utc_decrypt.
  rewrite Hu; cbn [obind]. rewrite Hp; cbn [obind].
  unfold gcm_clobbering_decrypt. rewrite Hl. cbv beta iota zeta.
  rewrite Hfail. unfold gcm_unclobber. now rewrite apply_keystream_involutive.
Qed.

Lemma utc_decrypt_failure_restores_ciphertext_witness :
  unpack_tag (cx_ComSize aes128_shape) w2_bad_tag
    = Done (firstn 16 w2_bad_tag, skipn 16 w2_bad_tag)
  /\ prf (cx_new aes128_shape zero_key16) zero_nonce12 = Done (fst w2_prf, snd w2_prf)
  /\ ((C_MAX <? N.of_nat (length w2_ct)) || (A_MAX <? N.of_nat (length (@nil u8))))%N = false
  /\ ct_eq (compute_tag toy_ghash aes128_shape (snd w2_prf) zero_nonce12 [] w2_ct)
           (firstn 16 w2_bad_tag)
       && ct_eq (skipn 16 w2_bad_tag) (fst w2_prf) = false
  /\ utc_decrypt toy_ghash aes128_shape zero_key16 zero_nonce12 [] w2_ct w2_bad_tag
       = Done (w2_ct, Err mk_Error).
Proof.
  assert (H1 : unpack_tag (cx_ComSize aes128_shape) w2_bad_tag
               = Done (firstn 16 w2_bad_tag, skipn 16 w2_bad_tag)) by (vm_compute; reflexivity).
  assert (H2 : prf (cx_new aes128_shape zero_key16) zero_nonce12
               = Done (fst w2_prf, snd w2_prf)) by (vm_compute; reflexivity).
  assert (H3 : ((C_MAX <? N.of_nat (length w2_ct)) || (A_MAX <? N.of_nat (length (@nil u8))))%N
               = false) by (vm_compute; reflexivity).
  assert (H4 : ct_eq (compute_tag toy_ghash aes128_shape (snd w2_prf) zero_nonce12 [] w2_ct)
                     (firstn 16 w2_bad_tag)
                 && ct_eq (skipn 16 w2_bad_tag) (fst w2_prf) = false)
    by (vm_compute; reflexivity).
  split; [exact H1|]. split; [exact H2|]. split; [exact H3|]. split; [exact H4|].
  exact (utc_decrypt_failure_restores_ciphertext toy_ghash aes128_shape zero_key16
           zero_nonce12 [] w2_ct w2_bad_tag _ _ _ _ H1 H2 H3 H4).
Defined.

(** C8: for a GCM tag of [AesGcmTagSize] bytes and a commitment of
    [ComSize] bytes, [pack_tag] gives their concatenation, of length
    [AesGcmTagSize + ComSize], and [unpack_tag] of it gives back exactly the
    two parts. *)
Theorem pack_then_unpack_is_identity (c : BlockCipher) gcm_tag prf_com :
  length gcm_tag = AesGcmTagSize -> length prf_com = cx_ComSize c ->
  pack_tag (cx_ComSize c) gcm_tag prf_com = Done (gcm_tag ++ prf_com)
  /\ length (gcm_tag ++ prf_com) = UtcTagSize c
  /\ unpack_tag (cx_ComSize c) (gcm_tag ++ prf_com) = Done (gcm_tag, prf_com)
  /\ (let! t := pack_tag (cx_ComSize c) gcm_tag prf_com in unpack_tag (cx_ComSize c) t)
       = Done (gcm_tag, prf_com).
Proof.
  intros Hg Hc.
  assert (Hp : pack_tag (cx_ComSize c) gcm_tag prf_com = Done (gcm_tag ++ prf_com))
    by (now apply pack_tag_ok).
  assert (Hu : unpack_tag (cx_ComSize c) (gcm_tag ++ prf_com) = Done (gcm_tag, prf_com))
    by (now apply unpack_tag_app).
  split; [exact Hp|]. split.
  - rewrite length_app, Hg, Hc. unfold UtcTagSize. lia.
  - split; [exact Hu|]. rewrite Hp. exact Hu.
Qed.

Lemma pack_then_unpack_is_identity_witness :
  length (repeat 1%Z 16) = AesGcmTagSize
  /\ length (repeat 2%Z 32) = cx_ComSize aes128_shape
  /\ unpack_tag (cx_ComSize aes128_shape) (repeat 1%Z 16 ++ repeat 2%Z 32)
       = Done (repeat 1%Z 16, repeat 2%Z 32).
Proof.
  assert (H1 : length (repeat 1%Z 16) = AesGcmTagSize) by reflexivity.
  assert (H2 : length (repeat 2%Z 32) = cx_ComSize aes128_shape) by reflexivity.
  split; [exact H1|]. split; [exact H2|].
  exact (proj1 (proj2 (proj2 (pack_then_unpack_is_identity aes128_shape _ _ H1 H2)))).
Defined.

(** C6: HkdfHte's encryption derives [enc_key = HKDF-Expand(prk, nonce ||
    aad, A.KeySize)] with [prk = HKDF-Extract("HkdfHte", key)] (RFC 5869),
    calls the inner encryption with that key, the same nonce, empty
    associated data and the plaintext, and returns its result unchanged;
    decryption derives the same key and calls the inner decryption with
    empty associated data. *)
Theorem hkdf_hte_derives_key_and_drops_aad (A : Aead) (H : Hash) key nonce aad buffer tag :
  0 < hash_OutputSize H ->
  let prk := rfc5869_extract H HkdfHte_EXTRACT_DOMAIN_SEP key in
  aead_encrypt (hkdf_hte_aead A H) key nonce aad buffer
    = match rfc5869_expand H prk (nonce ++ aad) (aead_KeySize A) with
      | Some enc_key => aead_encrypt A enc_key nonce [] buffer
      | None => Panic "key size is far too large: InvalidLength"
      end
  /\ aead_decrypt (hkdf_hte_aead A H) key nonce aad buffer tag
    = match rfc5869_expand H prk (nonce ++ aad) (aead_KeySize A) with
      | Some enc_key => aead_decrypt A enc_key nonce [] buffer tag
      | None => Panic "key size is far too large: InvalidLength"
      end.
Proof.
  intros Hh prk. cbn [aead_encrypt aead_decrypt hkdf_hte_aead].
  unfold hkdf_hte_encrypt, hkdf_hte_decrypt.
  rewrite !expand_multi_info_rfc5869 by exact Hh. cbn [obind].
  split; reflexivity.
Qed.

Lemma hkdf_hte_derives_key_and_drops_aad_witness :
  0 < hash_OutputSize toy_sha256
  /\ aead_encrypt (hkdf_hte_aead (utc_aead toy_ghash aes128_shape) toy_sha256)
       zero_key16 zero_nonce12 [7%Z] hello
     = match rfc5869_expand toy_sha256
               (rfc5869_extract toy_sha256 HkdfHte_EXTRACT_DOMAIN_SEP zero_key16)
               (zero_nonce12 ++ [7%Z]) 16 with
       | Some enc_key => utc_encrypt toy_ghash aes128_shape enc_key zero_nonce12 [] hello
       | None => Panic "key size is far too large: InvalidLength"
       end.
Proof.
  assert (Hh : 0 < hash_OutputSize toy_sha256) by (simpl; lia).
  split; [exact Hh|].
  exact (proj1 (hkdf_hte_derives_key_and_drops_aad (utc_aead toy_ghash aes128_shape)
                  toy_sha256 zero_key16 zero_nonce12 [7%Z] hello [] Hh)).
Defined.

(** C7: MacHte's encryption and decryption both use as key the first
    [A.KeySize] bytes of [MAC(key, nonce || aad)] (when the MAC's output is
    at least [A.KeySize] bytes and the MAC accepts the key), and call the
    inner AEAD with that key, the same nonce and empty associated data; so
    both directions use the same key for the same (key, nonce, aad). *)
Theorem mac_hte_derives_truncated_key (A : Aead) (M : MacAlg) key nonce aad buffer tag :
  mac_key_ok M (length key) = true ->
  aead_KeySize A <= mac_OutputSize M ->
  let enc_key := firstn (aead_KeySize A) (mac_fn M key (nonce ++ aad)) in
  length enc_key = aead_KeySize A
  /\ aead_encrypt (mac_hte_aead A M) key nonce aad buffer
       = aead_encrypt A enc_key nonce [] buffer
  /\ aead_decrypt (mac_hte_aead A M) key nonce aad buffer tag
       = aead_decrypt A enc_key nonce [] buffer tag.
Proof.
  intros Hok Hle enc_key.
  assert (Hd : length (mac_fn M key (nonce ++ aad)) = mac_OutputSize M) by apply mac_fn_len.
  assert (Hl : length enc_key = aead_KeySize A)
    by (unfold enc_key; rewrite length_firstn; lia).
  split; [exact Hl|].
  cbn [aead_encrypt aead_decrypt mac_hte_aead].
  unfold mac_hte_encrypt, mac_hte_decrypt, mac_hte_digest. cbn [mac_key mac_hte_new].
  rewrite Hok. cbn [obind].
  rewrite slice_range_ok by lia. cbn [obind].
  rewrite Nat.sub_0_r. change (skipn 0 ?l) with l. fold enc_key.
  unfold from_slice. rewrite Hl, Nat.eqb_refl. cbn [obind].
  split; reflexivity.
Qed.

Lemma mac_hte_derives_truncated_key_witness :
  mac_key_ok (hmac_as_mac toy_sha256) (length zero_key16) = true
  /\ aead_KeySize (utc_aead toy_ghash aes128_shape) <= mac_OutputSize (hmac_as_mac toy_sha256)
  /\ aead_encrypt (mac_hte_aead (utc_aead toy_ghash aes128_shape) (hmac_as_mac toy_sha256))
       zero_key16 zero_nonce12 [7%Z] hello
     = utc_encrypt toy_ghash aes128_shape
         (firstn 16 (toy_hmac 32 zero_key16 (zero_nonce12 ++ [7%Z]))) zero_nonce12 [] hello.
Proof.
  assert (H1 : mac_key_ok (hmac_as_mac toy_sha256) (length zero_key16) = true) by reflexivity.
  assert (H2 : aead_KeySize (utc_aead toy_ghash aes128_shape)
               <= mac_OutputSize (hmac_as_mac toy_sha256)) by (simpl; lia).
  split; [exact H1|]. split; [exact H2|].
  exact (proj1 (proj2 (mac_hte_derives_truncated_key (utc_aead toy_ghash aes128_shape)
                         (hmac_as_mac toy_sha256) zero_key16 zero_nonce12 [7%Z] hello []
                         H1 H2))).
Defined.

(** C10: [MacHte::new] takes any key and stores it as given, without asking
    the MAC; when the MAC rejects keys of that length, encryption and
    decryption panic with "invalid MAC key length". *)
Theorem mac_hte_new_defers_key_check (A : Aead) (M : MacAlg) key nonce aad buffer tag :
  mac_key_ok M (length key) = false ->
  mac_key (mac_hte_new key) = key
  /\ aead_encrypt (mac_hte_aead A M) key nonce aad buffer
       = Panic "invalid MAC key length: InvalidLength"
  /\ aead_decrypt (mac_hte_aead A M) key nonce aad buffer tag
       = Panic "invalid MAC key length: InvalidLength".
Proof.
  intro Hrej. split; [reflexivity|].
  cbn [aead_encrypt aead_decrypt mac_hte_aead].
  unfold mac_hte_encrypt, mac_hte_decrypt, mac_hte_digest. cbn [mac_key mac_hte_new].
  rewrite Hrej. split; reflexivity.
Qed.

Lemma mac_hte_new_defers_key_check_witness :
  mac_key_ok toy_mac_key32 (length zero_key16) = false
  /\ aead_encrypt (mac_hte_aead (utc_aead toy_ghash aes128_shape) toy_mac_key32)
       zero_key16 zero_nonce12 [] hello
     = Panic "invalid MAC key length: InvalidLength".
Proof.
  assert (H : mac_key_ok toy_mac_key32 (length zero_key16) = false) by reflexivity.
  split; [exact H|].
  exact (proj1 (proj2 (mac_hte_new_defers_key_check (utc_aead toy_ghash aes128_shape)
                         toy_mac_key32 zero_key16 zero_nonce12 [] hello [] H))).
Defined.

(** C3 (corrected): the UtC key, the CX key and the base AES-GCM key all
    have [Ciph::KeySize] bytes.  The mask returned by [prf], used as the
    AES-GCM key, has that size too.  The commitment has twice that size, so
    the UtC key is not twice the size of the base AEAD key. *)
Theorem utc_key_is_mask_sized ghash c key nonce com mask :
  prf (cx_new c key) nonce = Done (com, mask) ->
  aead_KeySize (utc_aead ghash c) = cx_KeySize c
  /\ aead_KeySize (utc_aead ghash c) = gcm_KeySize c
  /\ length mask = gcm_KeySize c
  /\ length com = 2 * aead_KeySize (utc_aead ghash c).
Proof.
  intro H. apply prf_done_shape in H as (_ & Hc & Hm & _).
  cbn [aead_KeySize utc_aead].
  unfold utc_KeySize, cx_KeySize, gcm_KeySize in *.
  unfold cx_ComSize in Hc. unfold cx_MaskSize in Hm.
  split; [reflexivity|]. split; [reflexivity|]. split; [exact Hm|]. lia.
Qed.

Lemma utc_key_is_mask_sized_witness :
  prf (cx_new aes128_shape zero_key16) zero_nonce12 = Done (fst w2_prf, snd w2_prf)
  /\ length (fst w2_prf) = 2 * aead_KeySize (utc_aead toy_ghash aes128_shape).
Proof.
  assert (H : prf (cx_new aes128_shape zero_key16) zero_nonce12
              = Done (fst w2_prf, snd w2_prf)) by (vm_compute; reflexivity).
  split; [exact H|].
  exact (proj2 (proj2 (proj2 (utc_key_is_mask_sized toy_ghash aes128_shape zero_key16
                                zero_nonce12 (fst w2_prf) (snd w2_prf) H)))).
Defined.

Lemma utc_key_is_mask_sized_counterexample :
  aead_KeySize (utc_aead toy_ghash aes128_shape) = 16
  /\ gcm_KeySize aes128_shape = 16
  /\ aead_KeySize (utc_aead toy_ghash aes128_shape) <> 2 * gcm_KeySize aes128_shape.
Proof.
  split; [reflexivity|]. split; [reflexivity|]. apply Nat.eqb_neq. reflexivity.
Qed.

(** C4 (corrected): [CxPrf::new] never fails; when [KeySize] is not a
    multiple of [BlockSize], every call to [prf] panics instead. *)
Theorem cx_prf_bad_key_size_panics_in_prf c key msg :
  KeySize c mod BlockSize c <> 0 ->
  cx_new c key = {| ciph := c; ciph_key := key |}
  /\ exists s, prf (cx_new c key) msg = Panic s.
Proof.
  intro Hm. split; [reflexivity|].
  destruct (prf (cx_new c key) msg) as [[com mask]|s] eqn:E; [|eauto].
  exfalso. apply prf_done_shape in E as (Hbs & _ & Hmask & bl & Hall & Hlen & _ & Hmk).
  apply Hm. rewrite Hmk in Hmask.
  rewrite (length_concat_firstn_skipn (BlockSize c)) in Hmask by (auto; lia).
  unfold cx_MaskSize in Hmask. rewrite <- Hmask. apply Nat.Div0.mod_mul.
Qed.

Lemma cx_prf_bad_key_size_panics_in_prf_witness :
  KeySize aes192_shape mod BlockSize aes192_shape <> 0
  /\ exists s, prf (cx_new aes192_shape key24) nonce12 = Panic s.
Proof.
  assert (H : KeySize aes192_shape mod BlockSize aes192_shape <> 0)
    by (apply Nat.eqb_neq; reflexivity).
  split; [exact H|].
  exact (proj2 (cx_prf_bad_key_size_panics_in_prf aes192_shape key24 nonce12 H)).
Defined.

Lemma cx_prf_bad_key_size_panics_in_prf_counterexample :
  cx_new aes192_shape key24 = {| ciph := aes192_shape; ciph_key := key24 |}
  /\ prf (cx_new aes192_shape key24) nonce12
     = Panic "called `Option::unwrap()` on a `None` value".
Proof. split; [reflexivity | vm_compute; reflexivity]. Qed.

(** C5 (corrected): when [KeySize] is a positive multiple of [BlockSize],
    at most twice [BlockSize], and the message is shorter than a block,
    [prf] returns exactly the reference CX[E] result [cx_prf_spec]; with
    more than 6 blocks (and a positive block size) [prf] panics on the
    slice of its 6-block buffer, whatever the message. *)
Theorem cx_prf_matches_reference c key M :
  (0 < KeySize c -> KeySize c mod BlockSize c = 0 -> KeySize c <= 2 * BlockSize c ->
   length M < BlockSize c ->
   prf (cx_new c key) M = Done (cx_prf_spec c key M))
  /\ (0 < BlockSize c ->
      6 < cx_ComSize c / BlockSize c + cx_MaskSize c / BlockSize c ->
      prf (cx_new c key) M = Panic "range end index out of range for slice").
Proof.
  split; [|apply prf_too_many_blocks].
  intros Hk Hm Hle HM.
  destruct (cx_block_counts c Hk Hm Hle) as (Hbs & q & Hq & Hks & Hnm & Hnc).
  set (n := cx_ComSize c / BlockSize c + cx_MaskSize c / BlockSize c).
  assert (Hn : n = 3 * q) by (subst n; rewrite Hnc, Hnm; lia).
  assert (Hseq : seq 1 n = 1 :: seq 2 (n - 1)).
  { assert (H0 : forall m, 0 < m -> seq 1 m = 1 :: seq 2 (m - 1))
      by (intros [|m] ?; [lia | simpl; now rewrite Nat.sub_0_r]).
    apply H0. lia. }
  pose proof (fill_blocks_spec (BlockSize c) M n 0 HM ltac:(lia)) as Hfill.
  rewrite Hseq in Hfill. cbn [map] in Hfill.
  pose proof (prf_unfold c key M (cx_spec_block (BlockSize c) M 1)
                (map (cx_spec_block (BlockSize c) M) (seq 2 (n - 1))) Hbs) as HU.
  cbv zeta in HU.
  rewrite HU; [| fold n; lia | exact Hfill | | | |].
  - unfold cx_prf_spec. cbv zeta.
    replace (2 * KeySize c) with (cx_ComSize c) by (unfold cx_ComSize; lia).
    change (KeySize c / BlockSize c) with (cx_MaskSize c / BlockSize c).
    fold n. rewrite Hseq. cbn [map]. rewrite map_map. reflexivity.
  - constructor; [unfold cx_spec_block; rewrite !length_app, repeat_length; simpl; lia|].
    apply Forall_forall. intros x Hx. apply in_map_iff in Hx as (i & <- & _).
    unfold cx_spec_block. rewrite !length_app, repeat_length. simpl. lia.
  - cbn [length]. rewrite length_map, length_seq. fold n. lia.
  - rewrite Hnc. unfold cx_ComSize. lia.
  - rewrite Hnm. unfold cx_MaskSize. lia.
Qed.

Lemma cx_prf_matches_reference_witness :
  (0 < KeySize aes128_shape /\ KeySize aes128_shape mod BlockSize aes128_shape = 0
   /\ KeySize aes128_shape <= 2 * BlockSize aes128_shape
   /\ length nonce12 < BlockSize aes128_shape
   /\ prf (cx_new aes128_shape key16) nonce12
      = Done (cx_prf_spec aes128_shape key16 nonce12))
  /\ (0 < BlockSize tdes_shape
      /\ 6 < cx_ComSize tdes_shape / BlockSize tdes_shape
             + cx_MaskSize tdes_shape / BlockSize tdes_shape
      /\ prf (cx_new tdes_shape key24) msg4 = Panic "range end index out of range for slice").
Proof.
  assert (H5 : 0 < BlockSize tdes_shape) by (apply Nat.ltb_lt; reflexivity).
  assert (H6 : 6 < cx_ComSize tdes_shape / BlockSize tdes_shape
                   + cx_MaskSize tdes_shape / BlockSize tdes_shape)
    by (apply Nat.ltb_lt; reflexivity).
  split; [|split; [exact H5|]; split; [exact H6|];
           exact (proj2 (cx_prf_matches_reference tdes_shape key24 msg4) H5 H6)].
  assert (H1 : 0 < KeySize aes128_shape) by (apply Nat.ltb_lt; reflexivity).
  assert (H2 : KeySize aes128_shape mod BlockSize aes128_shape = 0) by reflexivity.
  assert (H3 : KeySize aes128_shape <= 2 * BlockSize aes128_shape)
    by (apply Nat.leb_le; reflexivity).
  assert (H4 : length nonce12 < BlockSize aes128_shape) by (apply Nat.ltb_lt; reflexivity).
  split; [exact H1|]. split; [exact H2|]. split; [exact H3|]. split; [exact H4|].
  exact (proj1 (cx_prf_matches_reference aes128_shape key16 nonce12) H1 H2 H3 H4).
Defined.

Lemma cx_prf_matches_reference_counterexample :
  KeySize tdes_shape mod BlockSize tdes_shape = 0
  /\ length msg4 < BlockSize tdes_shape
  /\ prf (cx_new tdes_shape key24) msg4 = Panic "range end index out of range for slice"
  /\ prf (cx_new tdes_shape key24) msg4 <> Done (cx_prf_spec tdes_shape key24 msg4).
Proof.
  split; [reflexivity|]. split; [apply Nat.ltb_lt; reflexivity|].
  split; [vm_compute; reflexivity|].
  intro H. vm_compute in H. discriminate H.
Qed.

(** C9 (corrected): [prf] slices a buffer of 6 blocks.  When there are
    more than 6 blocks it panics on that slice.  When [KeySize] is a
    positive multiple of [BlockSize], at most twice it, and the message
    fits in a block, [prf] returns a commitment of [2 * KeySize] bytes and a
    mask of [KeySize] bytes. *)
Theorem cx_prf_six_block_limit c key msg :
  (0 < BlockSize c ->
   6 < cx_ComSize c / BlockSize c + cx_MaskSize c / BlockSize c ->
   prf (cx_new c key) msg = Panic "range end index out of range for slice")
  /\ (0 < KeySize c -> KeySize c mod BlockSize c = 0 -> KeySize c <= 2 * BlockSize c ->
      length msg <= BlockSize c ->
      exists com mask, prf (cx_new c key) msg = Done (com, mask)
                       /\ length com = 2 * KeySize c /\ length mask = KeySize c).
Proof.
  split.
  - apply prf_too_many_blocks.
  - intros Hk Hm Hle Hmsg.
    destruct (prf_total c key msg Hk Hm Hle Hmsg) as (com & mask & E).
    exists com, mask. split; [exact E|].
    apply prf_done_shape in E as (_ & Hc & Hmk & _).
    unfold cx_ComSize in Hc. unfold cx_MaskSize in Hmk. lia.
Qed.

Lemma cx_prf_six_block_limit_witness :
  (0 < BlockSize tdes_shape
   /\ 6 < cx_ComSize tdes_shape / BlockSize tdes_shape
          + cx_MaskSize tdes_shape / BlockSize tdes_shape
   /\ prf (cx_new tdes_shape key24) msg4 = Panic "range end index out of range for slice")
  /\ (0 < KeySize aes256_shape /\ KeySize aes256_shape mod BlockSize aes256_shape = 0
      /\ KeySize aes256_shape <= 2 * BlockSize aes256_shape
      /\ length nonce12 <= BlockSize aes256_shape
      /\ exists com mask, prf (cx_new aes256_shape key32) nonce12 = Done (com, mask)
                          /\ length com = 64 /\ length mask = 32).
Proof.
  assert (H1 : 0 < BlockSize tdes_shape) by (apply Nat.ltb_lt; reflexivity).
  assert (H2 : 6 < cx_ComSize tdes_shape / BlockSize tdes_shape
                   + cx_MaskSize tdes_shape / BlockSize tdes_shape)
    by (apply Nat.ltb_lt; reflexivity).
  assert (H3 : 0 < KeySize aes256_shape) by (apply Nat.ltb_lt; reflexivity).
  assert (H4 : KeySize aes256_shape mod BlockSize aes256_shape = 0) by reflexivity.
  assert (H5 : KeySize aes256_shape <= 2 * BlockSize aes256_shape)
    by (apply Nat.leb_le; reflexivity).
  assert (H6 : length nonce12 <= BlockSize aes256_shape) by (apply Nat.leb_le; reflexivity).
  split.
  - split; [exact H1|]. split; [exact H2|].
    exact (proj1 (cx_prf_six_block_limit tdes_shape key24 msg4) H1 H2).
  - split; [exact H3|]. split; [exact H4|]. split; [exact H5|]. split; [exact H6|].
    exact (proj2 (cx_prf_six_block_limit aes256_shape key32 nonce12) H3 H4 H5 H6).
Defined.

Lemma cx_prf_six_block_limit_counterexample :
  cx_ComSize aes192_shape / BlockSize aes192_shape = 3
  /\ cx_MaskSize aes192_shape / BlockSize aes192_shape = 1
  /\ cx_ComSize aes192_shape / BlockSize aes192_shape
       + cx_MaskSize aes192_shape / BlockSize aes192_shape = 4
  /\ length nonce12 <= BlockSize aes192_shape
  /\ prf (cx_new aes192_shape key24) nonce12
     = Panic "called `Option::unwrap()` on a `None` value".
Proof.
  split; [reflexivity|]. split; [reflexivity|]. split; [reflexivity|].
  split; [apply Nat.leb_le; reflexivity|].
  vm_compute; reflexivity.
Qed.

(* ================================================================== *)
(** * Further properties of the code *)

(** ** Helpers *)

Lemma unpack_tag_inv cs tag g com :
  unpack_tag cs tag = Done (g, com) ->
  length g = AesGcmTagSize /\ length com = cs /\ tag = g ++ com.
Proof.
  unfold unpack_tag.
  destruct (slice_range tag 0 AesGcmTagSize) as [g0|s] eqn:E1; cbn [obind]; [|discriminate].
  apply slice_range_inv in E1 as (_ & _ & E1).
  unfold from_slice at 1.
  destruct (length g0 =? AesGcmTagSize) eqn:E2; cbn [obind]; [|discriminate].
  apply Nat.eqb_eq in E2.
  destruct (slice_range tag AesGcmTagSize (length tag)) as [c0|s] eqn:E3;
    cbn [obind]; [|discriminate].
  apply slice_range_inv in E3 as (_ & _ & E3).
  unfold from_slice.
  destruct (length c0 =? cs) eqn:E4; cbn [obind]; [|discriminate].
  apply Nat.eqb_eq in E4.
  intro H; injection H as <- <-.
  split; [exact E2|]. split; [exact E4|].
  rewrite E1, E3, Nat.sub_0_r. change (skipn 0 tag) with tag.
  rewrite (firstn_all2 (n := length tag - AesGcmTagSize)) by (rewrite length_skipn; lia).
  symmetry. apply firstn_skipn.
Qed.

(** A successful UtC decryption: the tag ends with the CX commitment of
    the key and nonce. *)
Lemma utc_decrypt_ok_com ghash c key nonce aad ct tag msg :
  utc_decrypt ghash c key nonce aad ct tag = Done (msg, Ok tt) ->
  exists mask, prf (cx_new c key) nonce = Done (skipn AesGcmTagSize tag, mask).
Proof.
  intro H. unfold utc_decrypt in H.
  destruct (unpack_tag _ tag) as [[g com]|s] eqn:Hu; cbn [obind] in H; [|discriminate].
  apply unpack_tag_inv in Hu as (Hg & Hc & ->).
  destruct (prf (cx_new c key) nonce) as [[ecom mask]|s] eqn:Hp;
    cbn [obind] in H; [|discriminate].
  unfold gcm_clobbering_decrypt in H.
  destruct ((C_MAX <? N.of_nat (length ct)) || (A_MAX <? N.of_nat (length aad)))%N;
    cbv beta iota zeta in H; [discriminate|].
  destruct (ct_eq com ecom) eqn:Hce; [|rewrite andb_false_r in H; discriminate].
  apply ct_eq_true in Hce as <-.
  exists mask. rewrite skipn_app, Hg, skipn_all2 by lia. reflexivity.
Qed.

Lemma length_rfc5869_T H prk info : forall n prev i,
  length (rfc5869_T H prk info prev i n) = n * hash_OutputSize H.
Proof.
  induction n as [|n IH]; intros prev i; simpl; [reflexivity|].
  rewrite length_app, hmac_len, IH. lia.
Qed.

Lemma rfc5869_expand_some H prk info L :
  0 < hash_OutputSize H -> L <= 255 * hash_OutputSize H ->
  exists out, rfc5869_expand H prk info L = Some out /\ length out = L.
Proof.
  intros Hh HL. unfold rfc5869_expand.
  destruct (255 * hash_OutputSize H <? L) eqn:E; [apply Nat.ltb_lt in E; lia|].
  eexists. split; [reflexivity|].
  rewrite length_firstn, length_rfc5869_T. apply Nat.min_l.
  pose proof (Nat.div_mod_eq (L + hash_OutputSize H - 1) (hash_OutputSize H)).
  pose proof (Nat.mod_upper_bound (L + hash_OutputSize H - 1) (hash_OutputSize H)).
  nia.
Qed.

Lemma fill_blocks_full_msg bs M1 M2 :
  length M1 = bs -> length M2 = bs -> firstn (bs - 1) M1 = firstn (bs - 1) M2 ->
  forall blocks i, all_len bs blocks ->
  fill_blocks bs M1 i blocks = fill_blocks bs M2 i blocks.
Proof.
  intros H1 H2 Hf. induction blocks as [|b bl IH]; intros i Hall; [reflexivity|].
  pose proof (Forall_inv Hall) as Hb; pose proof (Forall_inv_tail Hall) as Hbl.
  cbv beta in Hb.
  cbn [fill_blocks]. rewrite !copy_from_slice_range_ok by lia. cbn [obind].
  rewrite (IH (S i) Hbl). unfold set_nth.
  rewrite !firstn_O, !app_nil_l, H1, H2.
  rewrite (skipn_all2 b) by lia. rewrite !app_nil_r, H1, H2.
  destruct (bs - 1 <? bs); [|reflexivity]. cbn [obind].
  rewrite Hf, (skipn_all2 M1), (skipn_all2 M2) by lia. reflexivity.
Qed.

(** ** UtC *)

(** A successful UtC encryption keeps the buffer's length and returns the
    tag [gcm_tag || com], of [UtcTagSize] bytes, where [com] is the CX
    commitment of the key and nonce alone. *)
Theorem utc_encrypt_output_layout ghash c key nonce aad buffer ct tag :
  utc_encrypt ghash c key nonce aad buffer = Done (ct, Ok tag) ->
  exists com mask,
    prf (cx_new c key) nonce = Done (com, mask)
    /\ ct = apply_keystream (gcm_keystream c mask nonce) 0 buffer
    /\ tag = compute_tag ghash c mask nonce aad ct ++ com
    /\ length ct = length buffer
    /\ length tag = UtcTagSize c.
Proof.
  intro H. unfold utc_encrypt in H.
  destruct (prf (cx_new c key) nonce) as [[com mask]|s] eqn:Hp;
    cbn [obind] in H; [|discriminate].
  unfold gcm_encrypt in H.
  destruct ((P_MAX <? N.of_nat (length buffer))%N || (A_MAX <? N.of_nat (length aad))%N);
    cbv beta iota zeta in H; [discriminate|].
  destruct (pack_tag _ _ _) as [t|s] eqn:Hpk; cbn [obind] in H; [|discriminate].
  injection H as <- <-. apply pack_tag_inv in Hpk as (Hg & Hc & ->).
  exists com, mask. split; [reflexivity|]. split; [reflexivity|]. split; [reflexivity|].
  split; [apply apply_keystream_length|].
  rewrite length_app, Hg, Hc. unfold UtcTagSize. lia.
Qed.

Lemma utc_encrypt_output_layout_witness :
  utc_encrypt toy_ghash aes128_shape zero_key16 zero_nonce12 [] hello
    = Done (w2_ct, Ok w2_tag)
  /\ length w2_tag = UtcTagSize aes128_shape.
Proof.
  assert (H : utc_encrypt toy_ghash aes128_shape zero_key16 zero_nonce12 [] hello
              = Done (w2_ct, Ok w2_tag)) by (vm_compute; reflexivity).
  split; [exact H|].
  destruct (utc_encrypt_output_layout toy_ghash aes128_shape zero_key16 zero_nonce12 []
              hello w2_ct w2_tag H) as (com & mask & _ & _ & _ & _ & Hl).
  exact Hl.
Defined.

(** Whatever UtC decryption accepts, encryption produces: when decryption
    of [(ct, tag)] succeeds with plaintext [msg] and [ct] is within the
    AES-GCM plaintext limit, encrypting [msg] gives back [ct] and [tag]. *)
Theorem utc_decrypt_then_encrypt ghash c key nonce aad ct tag msg :
  utc_decrypt ghash c key nonce aad ct tag = Done (msg, Ok tt) ->
  (N.of_nat (length ct) <= P_MAX)%N ->
  utc_encrypt ghash c key nonce aad msg = Done (ct, Ok tag).
Proof.
  intros H Hlen. unfold utc_decrypt in H.
  destruct (unpack_tag _ tag) as [[g com]|s] eqn:Hu; cbn [obind] in H; [|discriminate].
  apply unpack_tag_inv in Hu as (Hg & Hc & ->).
  destruct (prf (cx_new c key) nonce) as [[ecom mask]|s] eqn:Hp;
    cbn [obind] in H; [|discriminate].
  unfold gcm_clobbering_decrypt in H.
  destruct ((C_MAX <? N.of_nat (length ct)) || (A_MAX <? N.of_nat (length aad)))%N eqn:Hl;
    cbv beta iota zeta in H; [discriminate|].
  destruct (ct_eq (compute_tag ghash c mask nonce aad ct) g) eqn:Ht;
    destruct (ct_eq com ecom) eqn:Hce; cbn [andb] in H; try discriminate.
  injection H as Hm. subst msg.
  apply ct_eq_true in Ht, Hce. subst g ecom.
  unfold utc_encrypt. rewrite Hp. cbn [obind]. unfold gcm_encrypt.
  rewrite apply_keystream_length.
  apply orb_false_iff in Hl as [_ Ha]. rewrite Ha.
  replace (P_MAX <? N.of_nat (length ct))%N with false
    by (symmetry; apply N.ltb_ge; exact Hlen).
  cbn [orb]. cbv beta iota zeta. rewrite apply_keystream_involutive.
  rewrite pack_tag_ok by assumption. reflexivity.
Qed.

Lemma utc_decrypt_then_encrypt_witness :
  utc_decrypt toy_ghash aes128_shape zero_key16 zero_nonce12 [] w2_ct w2_tag
    = Done (hello, Ok tt)
  /\ (N.of_nat (length w2_ct) <= P_MAX)%N
  /\ utc_encrypt toy_ghash aes128_shape zero_key16 zero_nonce12 [] hello
     = Done (w2_ct, Ok w2_tag).
Proof.
  assert (H1 : utc_decrypt toy_ghash aes128_shape zero_key16 zero_nonce12 [] w2_ct w2_tag
               = Done (hello, Ok tt)) by (vm_compute; reflexivity).
  assert (H2 : (N.of_nat (length w2_ct) <= P_MAX)%N) by (apply N.leb_le; vm_compute; reflexivity).
  split; [exact H1|]. split; [exact H2|].
  exact (utc_decrypt_then_encrypt toy_ghash aes128_shape zero_key16 zero_nonce12 []
           w2_ct w2_tag hello H1 H2).
Defined.

(** UtC commits to the key through CX: if one tag makes decryption succeed
    under two keys with the same nonce (for any associated data and
    ciphertexts), the two keys have the same CX commitment for that nonce,
    namely the tag's last [ComSize] bytes. *)
Theorem utc_decrypt_commits_to_prf ghash c k1 k2 nonce aad1 aad2 ct1 ct2 tag m1 m2 :
  utc_decrypt ghash c k1 nonce aad1 ct1 tag = Done (m1, Ok tt) ->
  utc_decrypt ghash c k2 nonce aad2 ct2 tag = Done (m2, Ok tt) ->
  exists com mask1 mask2,
    prf (cx_new c k1) nonce = Done (com, mask1)
    /\ prf (cx_new c k2) nonce = Done (com, mask2)
    /\ com = skipn AesGcmTagSize tag.
Proof.
  intros H1 H2.
  apply utc_decrypt_ok_com in H1 as [mask1 H1].
  apply utc_decrypt_ok_com in H2 as [mask2 H2].
  exists (skipn AesGcmTagSize tag), mask1, mask2. auto.
Qed.

Lemma utc_decrypt_commits_to_prf_witness :
  utc_decrypt toy_ghash aes128_shape zero_key16 zero_nonce12 [] w2_ct w2_tag
    = Done (hello, Ok tt)
  /\ exists com mask1 mask2,
       prf (cx_new aes128_shape zero_key16) zero_nonce12 = Done (com, mask1)
       /\ prf (cx_new aes128_shape zero_key16) zero_nonce12 = Done (com, mask2)
       /\ com = skipn AesGcmTagSize w2_tag.
Proof.
  assert (H : utc_decrypt toy_ghash aes128_shape zero_key16 zero_nonce12 [] w2_ct w2_tag
              = Done (hello, Ok tt)) by (vm_compute; reflexivity).
  split; [exact H|].
  exact (utc_decrypt_commits_to_prf toy_ghash aes128_shape zero_key16 zero_key16
           zero_nonce12 [] [] w2_ct w2_ct w2_tag hello hello H H).
Defined.

(** The AES-GCM length limits: UtC encryption of a plaintext longer than
    [P_MAX] or with associated data longer than [A_MAX] bytes, and UtC
    decryption of a ciphertext longer than [C_MAX] or with associated data
    longer than [A_MAX] bytes, return the error and leave the buffer as it
    was. *)
Theorem utc_gcm_length_limits ghash c key nonce aad buffer tag com mask :
  prf (cx_new c key) nonce = Done (com, mask) ->
  ((P_MAX < N.of_nat (length buffer) \/ A_MAX < N.of_nat (length aad))%N ->
   utc_encrypt ghash c key nonce aad buffer = Done (buffer, Err mk_Error))
  /\ (length tag = UtcTagSize c ->
      (C_MAX < N.of_nat (length buffer) \/ A_MAX < N.of_nat (length aad))%N ->
      utc_decrypt ghash c key nonce aad buffer tag = Done (buffer, Err mk_Error)).
Proof.
  intro Hp. split.
  - intro Hl. unfold utc_encrypt. rewrite Hp. cbn [obind]. unfold gcm_encrypt.
    replace ((P_MAX <? N.of_nat (length buffer)) || (A_MAX <? N.of_nat (length aad)))%N
      with true.
    + reflexivity.
    + symmetry. apply orb_true_iff.
      destruct Hl as [Hl|Hl]; [left|right]; apply N.ltb_lt; exact Hl.
  - intros Ht Hl. unfold utc_decrypt.
    rewrite <- (firstn_skipn AesGcmTagSize tag) at 1.
    rewrite unpack_tag_app.
    2: { rewrite length_firstn, Ht. unfold UtcTagSize, AesGcmTagSize. lia. }
    2: { rewrite length_skipn, Ht. unfold UtcTagSize, AesGcmTagSize. lia. }
    cbn [obind]. rewrite Hp. cbn [obind]. unfold gcm_clobbering_decrypt.
    replace ((C_MAX <? N.of_nat (length buffer)) || (A_MAX <? N.of_nat (length aad)))%N
      with true.
    + reflexivity.
    + symmetry. apply orb_true_iff.
      destruct Hl as [Hl|Hl]; [left|right]; apply N.ltb_lt; exact Hl.
Qed.

Lemma utc_gcm_length_limits_witness :
  (A_MAX < N.of_nat (length aad_too_long))%N
  /\ utc_encrypt toy_ghash aes128_shape zero_key16 zero_nonce12 aad_too_long hello
     = Done (hello, Err mk_Error)
  /\ utc_decrypt toy_ghash aes128_shape zero_key16 zero_nonce12 aad_too_long w2_ct w2_tag
     = Done (w2_ct, Err mk_Error).
Proof.
  assert (Hp : prf (cx_new aes128_shape zero_key16) zero_nonce12
               = Done (fst w2_prf, snd w2_prf)) by (vm_compute; reflexivity).
  assert (Ha : (A_MAX < N.of_nat (length aad_too_long))%N).
  { unfold aad_too_long. rewrite repeat_length, Nat2N.inj_add, N2Nat.id.
    change (N.of_nat 1) with 1%N. lia. }
  assert (Ht : length w2_tag = UtcTagSize aes128_shape) by (vm_compute; reflexivity).
  split; [exact Ha|]. split.
  - exact (proj1 (utc_gcm_length_limits toy_ghash aes128_shape zero_key16 zero_nonce12
                    aad_too_long hello w2_tag (fst w2_prf) (snd w2_prf) Hp) (or_intror Ha)).
  - exact (proj2 (utc_gcm_length_limits toy_ghash aes128_shape zero_key16 zero_nonce12
                    aad_too_long w2_ct w2_tag (fst w2_prf) (snd w2_prf) Hp) Ht (or_intror Ha)).
Defined.

(** ** Composition: the six exported schemes *)

(** For every exported scheme, a decryption that returns an error returns
    the single error value and leaves the buffer holding the ciphertext
    that was passed in: HkdfHte and MacHte hand back the inner UtC result,
    and UtC restores the buffer. *)
Theorem all_schemes_decrypt_error_keeps_ciphertext ghash aes128 aes256 sha256 sha512
  (s : Scheme) key nonce aad ct tag buffer' e :
  aead_decrypt (scheme_aead ghash aes128 aes256 sha256 sha512 s) key nonce aad ct tag
    = Done (buffer', Err e) ->
  buffer' = ct /\ e = mk_Error.
Proof.
  destruct s; cbn [scheme_aead aead_decrypt utc_aead hkdf_hte_aead mac_hte_aead];
    try apply utc_decrypt_err_keeps_buffer.
  - unfold hkdf_hte_decrypt.
    destruct (expand_multi_info _ _ _ _) as [[k|]|m]; cbn [obind];
      [apply utc_decrypt_err_keeps_buffer | discriminate | discriminate].
  - unfold hkdf_hte_decrypt.
    destruct (expand_multi_info _ _ _ _) as [[k|]|m]; cbn [obind];
      [apply utc_decrypt_err_keeps_buffer | discriminate | discriminate].
  - unfold mac_hte_decrypt.
    destruct (mac_hte_digest _ _ _ _) as [d|m]; cbn [obind]; [|discriminate].
    destruct (slice_range _ _ _) as [d'|m]; cbn [obind]; [|discriminate].
    destruct (from_slice _ _) as [k|m]; cbn [obind]; [|discriminate].
    apply utc_decrypt_err_keeps_buffer.
  - unfold mac_hte_decrypt.
    destruct (mac_hte_digest _ _ _ _) as [d|m]; cbn [obind]; [|discriminate].
    destruct (slice_range _ _ _) as [d'|m]; cbn [obind]; [|discriminate].
    destruct (from_slice _ _) as [k|m]; cbn [obind]; [|discriminate].
    apply utc_decrypt_err_keeps_buffer.
Qed.

Lemma all_schemes_decrypt_error_keeps_ciphertext_witness :
  aead_decrypt (toy_scheme MacHteUtcAes256Gcm) zero_key16 zero_nonce12 [] w1_ct w1_bad_tag
    = Done (w1_ct, Err mk_Error)
  /\ w1_ct = w1_ct /\ mk_Error = mk_Error.
Proof.
  assert (H : aead_decrypt (toy_scheme MacHteUtcAes256Gcm) zero_key16 zero_nonce12 []
                w1_ct w1_bad_tag = Done (w1_ct, Err mk_Error)) by (vm_compute; reflexivity).
  split; [exact H|].
  exact (all_schemes_decrypt_error_keeps_ciphertext toy_ghash aes128_shape aes256_shape
           toy_sha256 toy_sha512 MacHteUtcAes256Gcm zero_key16 zero_nonce12 [] w1_ct
           w1_bad_tag w1_ct mk_Error H).
Defined.

(** ** HkdfHte *)

(** HkdfHte derives a key of the inner AEAD's [KeySize] with HKDF-Expand,
    which refuses more than [255 * HashLen] bytes: with a larger key size,
    both encryption and decryption panic with "key size is far too large". *)
Theorem hkdf_hte_key_too_large_panics (A : Aead) (H : Hash) key nonce aad buffer tag :
  255 * hash_OutputSize H < aead_KeySize A ->
  aead_encrypt (hkdf_hte_aead A H) key nonce aad buffer
    = Panic "key size is far too large: InvalidLength"
  /\ aead_decrypt (hkdf_hte_aead A H) key nonce aad buffer tag
    = Panic "key size is far too large: InvalidLength".
Proof.
  intro Hk. cbn [aead_encrypt aead_decrypt hkdf_hte_aead].
  unfold hkdf_hte_encrypt, hkdf_hte_decrypt, expand_multi_info.
  replace (hash_OutputSize H * 255 <? aead_KeySize A) with true
    by (symmetry; apply Nat.ltb_lt; lia).
  split; reflexivity.
Qed.

Lemma hkdf_hte_key_too_large_panics_witness :
  255 * hash_OutputSize (toy_hash 1) < aead_KeySize (utc_aead toy_ghash (toy_cipher 16 256))
  /\ aead_encrypt (hkdf_hte_aead (utc_aead toy_ghash (toy_cipher 16 256)) (toy_hash 1))
       zero_key16 zero_nonce12 [] hello
     = Panic "key size is far too large: InvalidLength".
Proof.
  assert (Hk : 255 * hash_OutputSize (toy_hash 1)
               < aead_KeySize (utc_aead toy_ghash (toy_cipher 16 256)))
    by (apply Nat.ltb_lt; vm_compute; reflexivity).
  split; [exact Hk|].
  exact (proj1 (hkdf_hte_key_too_large_panics (utc_aead toy_ghash (toy_cipher 16 256))
                  (toy_hash 1) zero_key16 zero_nonce12 [] hello [] Hk)).
Defined.

(** ** HkdfComPrf *)

(** The HKDF committing PRF is HKDF as RFC 5869 defines it: with
    [prk = Extract("HkdfComPrf", K)], the commitment is
    [Expand(prk, "P" || M, 2 * MaskSize)] and the mask is
    [Expand(prk, "L" || M, MaskSize)], of those lengths, whenever the hash
    output is non-empty and [2 * MaskSize <= 255 * HashLen]. *)
Theorem hkdf_com_prf_is_hkdf (H : Hash) mask_size key msg :
  0 < hash_OutputSize H ->
  hkdf_com_prf_ComSize mask_size <= 255 * hash_OutputSize H ->
  exists com mask,
    hkdf_com_prf_prf H mask_size (hkdf_com_prf_new H key) msg = Done (com, mask)
    /\ rfc5869_expand H (rfc5869_extract H HkdfComPrf_EXTRACT_DOMAIN_SEP key)
         (bytes_of_string "P" ++ msg) (hkdf_com_prf_ComSize mask_size) = Some com
    /\ rfc5869_expand H (rfc5869_extract H HkdfComPrf_EXTRACT_DOMAIN_SEP key)
         (bytes_of_string "L" ++ msg) mask_size = Some mask
    /\ length com = hkdf_com_prf_ComSize mask_size
    /\ length mask = hkdf_com_prf_KeySize mask_size.
Proof.
  intros Hh Hle.
  set (prk := rfc5869_extract H HkdfComPrf_EXTRACT_DOMAIN_SEP key).
  destruct (rfc5869_expand_some H prk (bytes_of_string "P" ++ msg)
              (hkdf_com_prf_ComSize mask_size) Hh Hle) as (com & Ec & Lc).
  destruct (rfc5869_expand_some H prk (bytes_of_string "L" ++ msg) mask_size Hh)
    as (mask & Em & Lm); [unfold hkdf_com_prf_ComSize in Hle; lia|].
  exists com, mask.
  split; [|split; [exact Ec|split; [exact Em|split; [exact Lc|exact Lm]]]].
  unfold hkdf_com_prf_prf. cbn [hkdf hkdf_com_prf_new].
  change (hkdf_extract H (Some HkdfComPrf_EXTRACT_DOMAIN_SEP) key) with prk.
  rewrite !expand_multi_info_rfc5869 by exact Hh. cbn [obind].
  rewrite Ec. cbn [obind]. rewrite Em. reflexivity.
Qed.

Lemma hkdf_com_prf_is_hkdf_witness :
  0 < hash_OutputSize toy_sha256
  /\ hkdf_com_prf_ComSize 16 <= 255 * hash_OutputSize toy_sha256
  /\ exists com mask,
       hkdf_com_prf_prf toy_sha256 16 (hkdf_com_prf_new toy_sha256 key16) nonce12
         = Done (com, mask)
       /\ length com = 32 /\ length mask = 16.
Proof.
  assert (H1 : 0 < hash_OutputSize toy_sha256) by (apply Nat.ltb_lt; reflexivity).
  assert (H2 : hkdf_com_prf_ComSize 16 <= 255 * hash_OutputSize toy_sha256)
    by (apply Nat.leb_le; vm_compute; reflexivity).
  split; [exact H1|]. split; [exact H2|].
  destruct (hkdf_com_prf_is_hkdf toy_sha256 16 key16 nonce12 H1 H2)
    as (com & mask & E & _ & _ & Lc & Lm).
  exists com, mask. split; [exact E|]. split; [exact Lc|exact Lm].
Defined.

(** The commitment is expanded first: when [2 * MaskSize > 255 * HashLen]
    the PRF panics with "PRF com size is far too large", also when the mask
    alone would fit. *)
Theorem hkdf_com_prf_com_too_large_panics (H : Hash) mask_size key msg :
  255 * hash_OutputSize H < hkdf_com_prf_ComSize mask_size ->
  hkdf_com_prf_prf H mask_size (hkdf_com_prf_new H key) msg
    = Panic "PRF com size is far too large: InvalidLength".
Proof.
  intro Hk. unfold hkdf_com_prf_prf, expand_multi_info at 1.
  replace (hash_OutputSize H * 255 <? hkdf_com_prf_ComSize mask_size) with true
    by (symmetry; apply Nat.ltb_lt; lia).
  reflexivity.
Qed.

Lemma hkdf_com_prf_com_too_large_panics_witness :
  255 * hash_OutputSize (toy_hash 1) < hkdf_com_prf_ComSize 128
  /\ 128 <= 255 * hash_OutputSize (toy_hash 1)
  /\ hkdf_com_prf_prf (toy_hash 1) 128 (hkdf_com_prf_new (toy_hash 1) key16) nonce12
     = Panic "PRF com size is far too large: InvalidLength".
Proof.
  assert (Hk : 255 * hash_OutputSize (toy_hash 1) < hkdf_com_prf_ComSize 128)
    by (apply Nat.ltb_lt; vm_compute; reflexivity).
  split; [exact Hk|]. split; [apply Nat.leb_le; vm_compute; reflexivity|].
  exact (hkdf_com_prf_com_too_large_panics (toy_hash 1) 128 key16 nonce12 Hk).
Defined.

(** ** CX[E] *)

(** A message longer than a block does not fit in [block[..MsgSize]]: for
    a cipher with a positive block size and between 1 and 6 blocks to fill,
    [prf] panics on that slice. *)
Theorem cx_prf_long_msg_panics c key msg :
  0 < BlockSize c -> BlockSize c < length msg ->
  0 < cx_ComSize c / BlockSize c + cx_MaskSize c / BlockSize c <= 6 ->
  prf (cx_new c key) msg = Panic "range end index out of range for slice".
Proof.
  intros Hbs Hlong [Hpos H6]. unfold prf. cbv zeta. cbn [ciph ciph_key cx_new].
  destruct (BlockSize c =? 0) eqn:E0; [apply Nat.eqb_eq in E0; lia|].
  rewrite slice_range_ok by (rewrite ?repeat_length; lia). cbn [obind].
  rewrite Nat.sub_0_r. change (skipn 0 ?l) with l.
  rewrite firstn_repeat_le by exact H6.
  destruct (cx_ComSize c / BlockSize c + cx_MaskSize c / BlockSize c) as [|n]; [lia|].
  cbn [repeat fill_blocks]. unfold copy_from_slice_range, slice_range.
  rewrite repeat_length.
  destruct (length msg <=? BlockSize c) eqn:E; [apply Nat.leb_le in E; lia|].
  reflexivity.
Qed.

Lemma cx_prf_long_msg_panics_witness :
  0 < BlockSize aes128_shape /\ BlockSize aes128_shape < length msg17
  /\ 0 < cx_ComSize aes128_shape / BlockSize aes128_shape
         + cx_MaskSize aes128_shape / BlockSize aes128_shape <= 6
  /\ prf (cx_new aes128_shape key16) msg17 = Panic "range end index out of range for slice".
Proof.
  assert (H1 : 0 < BlockSize aes128_shape) by (apply Nat.ltb_lt; reflexivity).
  assert (H2 : BlockSize aes128_shape < length msg17) by (apply Nat.ltb_lt; reflexivity).
  assert (H3 : 0 < cx_ComSize aes128_shape / BlockSize aes128_shape
                   + cx_MaskSize aes128_shape / BlockSize aes128_shape <= 6)
    by (split; [apply Nat.ltb_lt | apply Nat.leb_le]; reflexivity).
  split; [exact H1|]. split; [exact H2|]. split; [exact H3|].
  exact (cx_prf_long_msg_panics aes128_shape key16 msg17 H1 H2 H3).
Defined.

(** With a message of exactly [BlockSize] bytes, the counter byte
    [block[BlockSize - 1] = i + 1] overwrites the message's last byte:
    two such messages that differ only in their last byte give the same
    [prf] result. *)
Theorem cx_prf_ignores_last_msg_byte c key M1 M2 :
  length M1 = BlockSize c -> length M2 = BlockSize c ->
  firstn (BlockSize c - 1) M1 = firstn (BlockSize c - 1) M2 ->
  prf (cx_new c key) M1 = prf (cx_new c key) M2.
Proof.
  intros H1 H2 Hf. unfold prf. cbv zeta. cbn [ciph ciph_key cx_new].
  destruct (BlockSize c =? 0); [reflexivity|].
  destruct (slice_range _ 0 _) as [bl|s] eqn:E; cbn [obind]; [|reflexivity].
  apply slice_range_inv in E as (_ & _ & ->).
  rewrite (fill_blocks_full_msg _ M1 M2 H1 H2 Hf); [reflexivity|].
  apply all_len_firstn, all_len_skipn, all_len_repeat, repeat_length.
Qed.

Lemma cx_prf_ignores_last_msg_byte_witness :
  msg16a <> msg16b
  /\ length msg16a = BlockSize aes128_shape /\ length msg16b = BlockSize aes128_shape
  /\ firstn (BlockSize aes128_shape - 1) msg16a = firstn (BlockSize aes128_shape - 1) msg16b
  /\ prf (cx_new aes128_shape key16) msg16a = prf (cx_new aes128_shape key16) msg16b.
Proof.
  assert (H1 : length msg16a = BlockSize aes128_shape) by reflexivity.
  assert (H2 : length msg16b = BlockSize aes128_shape) by reflexivity.
  assert (H3 : firstn (BlockSize aes128_shape - 1) msg16a
               = firstn (BlockSize aes128_shape - 1) msg16b) by reflexivity.
  split; [intro E; vm_compute in E; discriminate E|].
  split; [exact H1|]. split; [exact H2|]. split; [exact H3|].
  exact (cx_prf_ignores_last_msg_byte aes128_shape key16 msg16a msg16b H1 H2 H3).
Defined.
